(** * istanbul-lib-report: the coverage tree and its visitors

    A shallow embedding of [lib/tree.js] (the abstract [Node] / [Tree]
    classes, [Visitor] and [CompositeVisitor]) and of the package
    summarizer exported by [index.js], with the properties the
    specification states about them. *)

From Stdlib Require Import String Ascii List Bool Arith Lia.
From stdpp Require Import base option list strings gmap.

Set Default Proof Using "Type".
Local Open Scope string_scope.
Local Open Scope list_scope.

(** ** JavaScript completions and the effect monad

    A JavaScript call either returns or throws.  Visitor callbacks are
    arbitrary user code: they act on a world [W] (the report being written,
    the object behind [state], ...) and may throw any value.  A throw keeps
    the world as the failing call left it. *)

Section Protocol.

(** External collaborators, taken as parameters: the records of the coverage
    library, the handle through which a node designates its parent, the
    world the callbacks act on, the value threaded through the traversal as
    [state], and the values user code may throw. *)
Context {CoverageSummary FileCoverage NodeRef : Type}.
Context {W State E : Type}.

(** A thrown value: an [Error] object built by the library itself, or
    anything thrown by user code. *)
Inductive exn : Type :=
  | Error (message : string)
  | Thrown (e : E).

Inductive completion (A : Type) : Type :=
  | Normal (a : A)
  | Throw (e : exn).
Arguments Normal {A} a.
Arguments Throw {A} e.

Definition M (A : Type) : Type := W -> W * completion A.

Definition ret {A} (a : A) : M A := fun w => (w, Normal a).

Definition throw {A} (e : exn) : M A := fun w => (w, Throw e).

Definition lift {A} (c : completion A) : M A := fun w => (w, c).

Definition bind {A B} (m : M A) (f : A -> M B) : M B :=
  fun w =>
    match m w with
    | (w', Normal a) => f a w'
    | (w', Throw e) => (w', Throw e)
    end.

(** [Array.prototype.forEach]: the callback is applied to the elements in
    index order; a throw ends the loop. *)
Definition forEach {A} (f : A -> M unit) : list A -> M unit :=
  fix go (l : list A) : M unit :=
    match l with
    | [] => ret tt
    | x :: l' => bind (f x) (fun _ => go l')
    end.

(** ** Node

    [Node] is an abstract class: its prototype holds one throwing stub per
    accessor, and a concrete node overrides them.  A node object is modelled
    by the overrides it carries; [None] means that the lookup falls through
    to [Node.prototype].  Overrides are getters over an immutable tree. *)

#[warnings="-register-all"]
Inductive node : Type := mkNode {
  own_getQualifiedName : option string;
  own_getRelativeName : option string;
  own_getParent : option (option NodeRef);
  own_getChildren : option (list node);
  own_isSummary : option bool;
  own_getCoverageSummary : option (bool -> CoverageSummary);
  own_getFileCoverage : option (option FileCoverage)
}.

(** Method lookup: the object's own override, else the prototype's stub. *)
Definition dispatch {A} (own : option A) (stub : completion A) : completion A :=
  match own with
  | Some a => Normal a
  | None => stub
  end.

Definition must_be_overridden {A} (name : string) : completion A :=
  Throw (Error (name +:+ " must be overridden")).

Definition getQualifiedName (this : node) : completion string :=
  dispatch (own_getQualifiedName this) (must_be_overridden "getQualifiedName").

Definition getRelativeName (this : node) : completion string :=
  dispatch (own_getRelativeName this) (must_be_overridden "getRelativeName").

Definition getParent (this : node) : completion (option NodeRef) :=
  dispatch (own_getParent this) (must_be_overridden "getParent").

Definition getChildren (this : node) : completion (list node) :=
  dispatch (own_getChildren this) (must_be_overridden "getChildren").

Definition isSummary (this : node) : completion bool :=
  dispatch (own_isSummary this) (must_be_overridden "isSummary").

Definition getCoverageSummary (this : node) (filesOnly : bool)
  : completion CoverageSummary :=
  match dispatch (own_getCoverageSummary this)
                 (must_be_overridden "getCoverageSummary") with
  | Normal f => Normal (f filesOnly)
  | Throw e => Throw e
  end.

Definition getFileCoverage (this : node) : completion (option FileCoverage) :=
  dispatch (own_getFileCoverage this) (must_be_overridden "getFileCoverage").

(** [!x] for a value that is a node or [null]. *)
Definition not_ (x : option NodeRef) : bool :=
  match x with
  | Some _ => false
  | None => true
  end.

(** [return !this.getParent();] *)
Definition isRoot (this : node) : completion bool :=
  match getParent this with
  | Normal p => Normal (not_ p)
  | Throw e => Throw e
  end.

(** ** Visitor and CompositeVisitor *)

(** The five callbacks; [on k] is the property name ['on' + k]. *)
Inductive callback : Type := Start | End_ | Summary | SummaryEnd | Detail.

Definition suffix (k : callback) : string :=
  match k with
  | Start => "Start"
  | End_ => "End"
  | Summary => "Summary"
  | SummaryEnd => "SummaryEnd"
  | Detail => "Detail"
  end.

Definition on (k : callback) : string := "on" +:+ suffix k.

(** A property of a delegate object: a function, or some other value. *)
Inductive prop : Type :=
  | Fn (f : node -> State -> M unit)
  | Other (truthy : bool).

(** Instances of [Visitor]: [CompositeVisitor] inherits from [Visitor], so
    its instances pass [instanceof Visitor] too. *)
#[warnings="-register-all"]
Inductive visitor : Type :=
  | Visitor (delegate : gmap string prop)
  | Composite (visitors : list visitor).

(** A value handed over as a visitor: an instance of [Visitor], or a plain
    (possibly partial) object. *)
Inductive visitor_like : Type :=
  | Inst (v : visitor)
  | Raw (delegate : gmap string prop).

(** [v instanceof Visitor ? v : new Visitor(v)] *)
Definition ensure (v : visitor_like) : visitor :=
  match v with
  | Inst v => v
  | Raw d => Visitor d
  end.

(** The argument of [CompositeVisitor]: an array, or anything else. *)
Inductive visitors_arg : Type :=
  | Bare (v : visitor_like)
  | Arr (vs : list visitor_like).

Definition CompositeVisitor (visitors : visitors_arg) : visitor :=
  let visitors :=
    match visitors with
    | Arr vs => vs
    | Bare v => [v]
    end in
  Composite (map ensure visitors).

(** [Visitor.prototype[f]] *)
Definition Visitor_on (k : callback) (delegate : gmap string prop)
    (n : node) (state : State) : M unit :=
  match delegate !! on k with
  | Some (Fn f) => f n state
  | Some (Other _) => ret tt
  | None => ret tt
  end.

(** [v[f](node, state)]: the method the instance inherits. *)
Fixpoint call (k : callback) (v : visitor) (n : node) (state : State)
  : M unit :=
  match v with
  | Visitor delegate => Visitor_on k delegate n state
  | Composite visitors => forEach (fun v => call k v n state) visitors
  end.

(** ** Node.prototype.visit

    [visitor] is a full visitor, an instance of [Visitor].  The lookup of
    [getChildren] is written out, own override or the prototype's stub, so
    that the recursion on the children is structural. *)

Fixpoint visit (visitor : visitor) (state : State) (this : node) {struct this}
  : M unit :=
  let visitChildren : M unit :=
    match own_getChildren this with
    | Some children => forEach (visit visitor state) children
    | None => lift (must_be_overridden "getChildren")
    end in
  bind (lift (isSummary this)) (fun s =>
  bind (if s then call Summary visitor this state
        else call Detail visitor this state) (fun _ =>
  bind visitChildren (fun _ =>
  bind (lift (isSummary this)) (fun s' =>
  if s' then call SummaryEnd visitor this state else ret tt)))).

(** ** Tree *)

Record tree : Type := mkTree {
  own_getRoot : option node
}.

Definition getRoot (this : tree) : completion node :=
  dispatch (own_getRoot this) (must_be_overridden "getRoot").

Definition Tree_visit (this : tree) (visitor : visitor_like) (state : State)
  : M unit :=
  let visitor := ensure visitor in
  bind (lift (getRoot this)) (fun root =>
  bind (call Start visitor root state) (fun _ =>
  bind (lift (getRoot this)) (fun root =>
  bind (visit visitor state root) (fun _ =>
  bind (lift (getRoot this)) (fun root =>
  call End_ visitor root state))))).

(** ** The traversal as a sequence of steps

    What [visit] does at a node is fixed by the node alone: a list of
    callback invocations, cut short by a raise where an accessor the
    traversal needs is not overridden. *)

Inductive action : Type :=
  | Invoke (k : callback) (n : node)
  | Raise (e : exn).

Definition invoke (c : callback * node) : action := Invoke c.1 c.2.

Definition perform (v : visitor) (state : State) (a : action) : M unit :=
  match a with
  | Invoke k n => call k v n state
  | Raise e => throw e
  end.

Definition run (v : visitor) (state : State) : list action -> M unit :=
  forEach (perform v state).

Fixpoint script (n : node) : list action :=
  match isSummary n with
  | Throw e => [Raise e]
  | Normal s =>
      Invoke (if s then Summary else Detail) n
      :: match own_getChildren n with
         | Some children => flat_map script children
         | None => [Raise (Error "getChildren must be overridden")]
         end
      ++ (if s then [Invoke SummaryEnd n] else [])
  end.

Definition tree_script (t : tree) : list action :=
  match getRoot t with
  | Throw e => [Raise e]
  | Normal root => Invoke Start root :: script root ++ [Invoke End_ root]
  end.

(** A node conforms to the accessor contract of the traversal when it and
    all the nodes below it override [isSummary] and [getChildren]. *)
Fixpoint conforming (n : node) : bool :=
  match own_isSummary n, own_getChildren n with
  | Some _, Some children => forallb conforming children
  | _, _ => false
  end.

(** The variant and the child sequence of a node, as its overrides give
    them. *)
Definition is_summary (n : node) : bool := default false (own_isSummary n).

Definition children (n : node) : list node := default [] (own_getChildren n).

(** The sequence of calls of a traversal, in the specification's words:
    [onSummary] or [onDetail] on the node, then the calls of each child in
    child-sequence order, then [onSummaryEnd] if the node is a summary. *)
Fixpoint calls (n : node) : list (callback * node) :=
  (if is_summary n then (Summary, n) else (Detail, n))
  :: match own_getChildren n with
     | Some children => flat_map calls children
     | None => []
     end
  ++ (if is_summary n then [(SummaryEnd, n)] else []).

Definition run_calls (v : visitor) (state : State)
  : list (callback * node) -> M unit :=
  forEach (fun c => call c.1 v c.2 state).

#[export] Instance callback_eq_dec : EqDecision callback.
Proof. solve_decision. Defined.

(** How often callback [k] occurs in a sequence of calls. *)
Definition occurrences (k : callback) (l : list (callback * node)) : nat :=
  length (filter (fun c => c.1 = k) l).

(** Fan-out in the specification's words: the members are taken in
    registration order, each receiving the same [(node, state)] pair and the
    world its predecessor left; once a member has thrown, the remaining ones
    are passed over. *)
Definition in_turn (k : callback) (n : node) (state : State)
    (members : list visitor) (w : W) : W * completion unit :=
  fold_left
    (fun acc v =>
       match acc with
       | (w', Normal _) => call k v n state w'
       | (w', Throw e) => (w', Throw e)
       end)
    members (w, Normal tt).

(** The calls of [Tree.visit] on a tree whose root is [root]. *)
Definition tree_calls (root : node) : list (callback * node) :=
  (Start, root) :: calls root ++ [(End_, root)].

End Protocol.

Arguments Normal {E A} a.
Arguments Throw {E A} e.

(** ** Observing a traversal

    To speak of the callback sequence of a traversal, the visitor is put
    behind a partial visitor that writes every invocation it receives to a
    log kept next to the world, and then hands it on. *)

Section Recording.

Context {CoverageSummary FileCoverage NodeRef : Type}.
Context {W State E : Type}.

#[local] Abbreviation node := (@node CoverageSummary FileCoverage NodeRef).
#[local] Abbreviation tree := (@tree CoverageSummary FileCoverage NodeRef).

Definition event : Type := callback * node * State.

Definition recording (k : callback)
    (v : @visitor CoverageSummary FileCoverage NodeRef W State E)
    (n : node) (state : State) : @M (W * list event) E unit :=
  fun wl =>
    match call k v n state wl.1 with
    | (w', c) => ((w', wl.2 ++ [(k, n, state)]), c)
    end.

Definition spy (v : @visitor CoverageSummary FileCoverage NodeRef W State E)
  : gmap string (@prop CoverageSummary FileCoverage NodeRef
                       (W * list event) State E) :=
  <[ "onStart" := Fn (recording Start v) ]>
  (<[ "onSummary" := Fn (recording Summary v) ]>
  (<[ "onDetail" := Fn (recording Detail v) ]>
  (<[ "onSummaryEnd" := Fn (recording SummaryEnd v) ]>
  (<[ "onEnd" := Fn (recording End_ v) ]> ∅)))).

(** The callbacks [Tree.visit] invokes on [x], in order, when started in
    world [w]. *)
Definition callback_sequence (t : tree)
    (x : @visitor_like CoverageSummary FileCoverage NodeRef W State E)
    (state : State) (w : W) : list event :=
  (Tree_visit t (Raw (spy (ensure x))) state (w, [])).1.2.

(** A visitor is stateless when what a callback returns or throws does not
    depend on the world earlier calls have left. *)
Definition stateless
    (v : @visitor CoverageSummary FileCoverage NodeRef W State E) : Prop :=
  forall k n state w1 w2,
    (call k v n state w1).2 = (call k v n state w2).2.

End Recording.

(** ** The package summarizer

    [index.js] exports [summarizers.pkg = summarizer.createPackageSummary];
    [lib/summarizer.js] and the coverage library are not part of the sources
    at hand.  The coverage records come in as parameters: [toSummary] is the
    summary of a file's record, [merge] combines two summaries and [empty]
    is the zero summary. *)

Section Summarizers.

Context {CoverageSummary FileCoverage E : Type}.
Variable toSummary : FileCoverage -> CoverageSummary.
Variable merge : CoverageSummary -> CoverageSummary -> CoverageSummary.
Variable empty : CoverageSummary.

(** Modelled from the spec: the parent reference of a node of a package
    tree, "a lookup relation to the owning summary node": the root, or the
    package of a directory. *)
Inductive ref : Type :=
  | RootRef
  | PackageRef (dir : string).

#[local] Abbreviation pnode := (@node CoverageSummary FileCoverage ref).

(** Modelled from the spec: "each file path is split into path segments",
    here at the slashes; [cur] is the piece being read. *)
Fixpoint split_slash (cur : string) (path : string) : list string :=
  match path with
  | EmptyString => [cur]
  | String c rest =>
      if Ascii.eqb c "/" then cur :: split_slash "" rest
      else split_slash (cur +:+ String c "") rest
  end.

(** Modelled from the spec: the segments of a path, its non-empty pieces
    between slashes. *)
Definition segments (path : string) : list string :=
  filter (fun s => s ≠ "") (split_slash "" path).

(** Modelled from the spec: the name of a directory, its segments put
    together again. *)
Definition join_slash (l : list string) : string :=
  match l with
  | [] => ""
  | s :: l' => fold_left (fun acc s' => acc +:+ "/" +:+ s') l' s
  end.

(** Modelled from the spec: the "containing directory" of a file, all the
    segments of its path but the last, and the file's name inside it. *)
Definition dirname (path : string) : string :=
  join_slash (removelast (segments path)).

(** Modelled from the spec: the "relative name (path segment under
    parent)" of a file, the last segment of its path. *)
Definition basename (path : string) : string :=
  List.last (segments path) "".

(** Modelled from the spec: a path is invalid when it "cannot be decomposed
    into at least one segment (e.g., empty key)". *)
Definition decomposable (path : string) : bool :=
  match segments path with
  | [] => false
  | _ :: _ => true
  end.

(** Modelled from the spec: "stable grouping" of the files by containing
    directory, in "the input iteration order of the coverage-data mapping":
    a file joins the group of its directory at the end, and a directory met
    for the first time opens a new group after the existing ones. *)
Fixpoint add_file (dir : string) (file : string * FileCoverage)
    (groups : list (string * list (string * FileCoverage)))
  : list (string * list (string * FileCoverage)) :=
  match groups with
  | [] => [(dir, [file])]
  | (d, files) :: rest =>
      if decide (d = dir) then (d, files ++ [file]) :: rest
      else (d, files) :: add_file dir file rest
  end.

(** Modelled from the spec: the groups of a coverage mapping, its files
    added one after the other in iteration order. *)
Definition group_by_dir (coverageMap : list (string * FileCoverage))
  : list (string * list (string * FileCoverage)) :=
  fold_left (fun groups file => add_file (dirname file.1) file groups)
            coverageMap [].

(** Modelled from the spec: the detail variant, "exactly one wrapped file
    coverage record; no children; its coverage summary is a direct view of
    that record". *)
Definition detailNode (parent : ref) (file : string * FileCoverage) : pnode :=
  {| own_getQualifiedName := Some file.1;
     own_getRelativeName := Some (basename file.1);
     own_getParent := Some (Some parent);
     own_getChildren := Some [];
     own_isSummary := Some false;
     own_getCoverageSummary := Some (fun _ => toSummary file.2);
     own_getFileCoverage := Some (Some file.2) |}.

(** Modelled from the spec: the coverage summary of a summary node, "the
    merge of all descendant detail summaries (optionally restricted to only
    direct file children when queried with a files only mode)". *)
Definition summarize (children : list pnode) (filesOnly : bool)
  : CoverageSummary :=
  fold_left
    (fun acc child =>
       if filesOnly && is_summary child then acc
       else match own_getCoverageSummary child with
            | Some f => merge acc (f filesOnly)
            | None => acc
            end)
    children empty.

(** Modelled from the spec: the summary variant, an "ordered sequence of
    child Nodes"; [getFileCoverage] "must return an absent/null value for
    summary nodes". *)
Definition summaryNode (name : string) (parent : option ref)
    (children : list pnode) : pnode :=
  {| own_getQualifiedName := Some name;
     own_getRelativeName := Some name;
     own_getParent := Some parent;
     own_getChildren := Some children;
     own_isSummary := Some true;
     own_getCoverageSummary := Some (summarize children);
     own_getFileCoverage := Some None |}.

(** Modelled from the spec: a "package" node, "a direct, flat child of the
    root" whose children are the detail nodes of the files of its group. *)
Definition packageNode (group : string * list (string * FileCoverage))
  : pnode :=
  summaryNode group.1 (Some RootRef)
              (map (detailNode (PackageRef group.1)) group.2).

(** Modelled from the spec: the [pkg] summarizer of [lib/summarizer.js],
    "the root, and one summary node per unique containing directory of any
    file, each package node's children being only the detail nodes for files
    directly inside it"; it fails "with an invalid coverage data error kind
    when a path cannot be decomposed into at least one segment". *)
Definition createPackageSummary (coverageMap : list (string * FileCoverage))
  : @completion E (@tree CoverageSummary FileCoverage ref) :=
  if forallb (fun file => decomposable file.1) coverageMap then
    Normal (mkTree (Some (summaryNode "" None
                            (map packageNode (group_by_dir coverageMap)))))
  else Throw (Error "invalid coverage data").

(** Modelled from the spec: "the merge of" a sequence of summaries, from
    the zero summary on. *)
Definition merge_all (l : list CoverageSummary) : CoverageSummary :=
  fold_left merge l empty.

(** Modelled from the spec: the "files directly inside" [dir], those whose
    containing directory is [dir], in the order of the mapping. *)
Definition files_in (dir : string) (coverageMap : list (string * FileCoverage))
  : list (string * FileCoverage) :=
  filter (fun file => dirname file.1 = dir) coverageMap.

(** What a grouping [g] of the files of [coverageMap] has to satisfy: its
    directories are distinct, each comes with exactly the files directly
    inside it, and they are the containing directories of the files. *)
Definition grouped (coverageMap : list (string * FileCoverage))
    (g : list (string * list (string * FileCoverage))) : Prop :=
  NoDup (map fst g)
  /\ (forall d fs, (d, fs) ∈ g -> fs = files_in d coverageMap)
  /\ (forall f, f ∈ coverageMap -> dirname f.1 ∈ map fst g)
  /\ (forall d, d ∈ map fst g -> exists f, f ∈ coverageMap /\ dirname f.1 = d).

End Summarizers.

(** ** A sample report

    A coverage mapping with files in two directories and one at the top,
    line counts standing for the coverage records, and report generators
    that write lines to a console. *)

Module Sample.

Definition coverageMap : list (string * nat) :=
  [("lib/a.js", 3); ("lib/util/b.js", 5); ("lib/c.js", 7); ("index.js", 11)].

Abbreviation node := (@node nat nat ref).
Abbreviation M := (@M (list string) string).
Abbreviation prop := (@prop nat nat ref (list string) nat string).

Definition a_js : node := detailNode id (PackageRef "lib") ("lib/a.js", 3).
Definition b_js : node := detailNode id (PackageRef "lib/util") ("lib/util/b.js", 5).
Definition c_js : node := detailNode id (PackageRef "lib") ("lib/c.js", 7).
Definition index_js : node := detailNode id (PackageRef "") ("index.js", 11).

Definition lib : node := summaryNode Nat.add 0 "lib" (Some RootRef) [a_js; c_js].
Definition lib_util : node :=
  summaryNode Nat.add 0 "lib/util" (Some RootRef) [b_js].
Definition top : node := summaryNode Nat.add 0 "" (Some RootRef) [index_js].

Definition root : node := summaryNode Nat.add 0 "" None [lib; lib_util; top].

Definition report : @tree nat nat ref := mkTree (Some root).

(** A node that says it is a detail node and yet has a child. *)
Definition odd : node :=
  {| own_getQualifiedName := Some "odd";
     own_getRelativeName := Some "odd";
     own_getParent := Some None;
     own_getChildren := Some [a_js];
     own_isSummary := Some false;
     own_getCoverageSummary := Some (fun _ => 0);
     own_getFileCoverage := Some None |}.

(** An object of a subtype that overrides nothing. *)
Definition bare_node : node := mkNode None None None None None None None.

Definition bare_tree : @tree nat nat ref := mkTree None.

Definition name (n : node) : string := default "?" (own_getQualifiedName n).

(** A callback that writes a line and returns. *)
Definition note (k : callback) (n : node) (state : nat) : M unit :=
  fun console => (console ++ [on k +:+ " " +:+ name n], Normal tt).

(** A callback that writes a line and throws. *)
Definition fail (n : node) (state : nat) : M unit :=
  fun console => (console ++ ["failing on " +:+ name n], Throw (Thrown "boom")).

Definition logger : gmap string prop :=
  {[ "onStart" := Fn (note Start); "onSummary" := Fn (note Summary);
     "onDetail" := Fn (note Detail); "onSummaryEnd" := Fn (note SummaryEnd);
     "onEnd" := Fn (note End_) ]}.

Definition end_only : gmap string prop :=
  {[ "onSummaryEnd" := Fn (note SummaryEnd) ]}.

Definition detail_only : gmap string prop :=
  {[ "onDetail" := Fn (note Detail); "onEnd" := Other true ]}.

Definition failing : gmap string prop :=
  {[ "onSummary" := Fn (note Summary); "onDetail" := Fn fail ]}.

End Sample.

(** ** Orders of a traversal

    Notions in which the behaviour of the visitors and of the traversal is
    stated: the functions behind a callback, the two depth-first orders of
    a tree, and the nesting of the summary calls. *)

Section Orders.

Context {CoverageSummary FileCoverage NodeRef : Type}.
Context {W State E : Type}.

#[local] Abbreviation node := (@node CoverageSummary FileCoverage NodeRef).
#[local] Abbreviation visitor :=
  (@visitor CoverageSummary FileCoverage NodeRef W State E).

(** The delegate functions behind callback [k] of a visitor: the function
    in slot [on k] of a delegate, if it holds one, and for a composite those
    of its members in registration order. *)
Fixpoint delegate_fns (k : callback) (v : visitor)
  : list (node -> State -> @M W E unit) :=
  match v with
  | Visitor delegate =>
      match delegate !! on k with
      | Some (Fn f) => [f]
      | Some (Other _) => []
      | None => []
      end
  | Composite visitors => flat_map (delegate_fns k) visitors
  end.

(** A node before its children, the children in their order. *)
Fixpoint preorder (n : node) : list node :=
  n :: match own_getChildren n with
       | Some children => flat_map preorder children
       | None => []
       end.

(** A node after its children, the children in their order. *)
Fixpoint postorder (n : node) : list node :=
  match own_getChildren n with
  | Some children => flat_map postorder children
  | None => []
  end ++ [n].

(** The nodes a sequence of calls enters ([onSummary], [onDetail]) and the
    nodes it leaves ([onSummaryEnd]). *)
Definition entered (l : list (callback * node)) : list node :=
  map snd (filter (fun c => c.1 ≠ SummaryEnd) l).

Definition left_behind (l : list (callback * node)) : list node :=
  map snd (filter (fun c => c.1 = SummaryEnd) l).

(** Sequences of calls in which every [onSummary] on a node is closed by an
    [onSummaryEnd] on the same node, the pairs properly nested, with
    [onDetail] calls anywhere between them. *)
Inductive bracketed : list (callback * node) -> Prop :=
  | bracketed_nil : bracketed []
  | bracketed_detail n l :
      bracketed l -> bracketed ((Detail, n) :: l)
  | bracketed_summary n inner l :
      bracketed inner -> bracketed l ->
      bracketed ((Summary, n) :: inner ++ (SummaryEnd, n) :: l).

(** The event recorded for a call made with [state]. *)
Definition event_of (state : State) (c : callback * node)
  : @event CoverageSummary FileCoverage NodeRef State :=
  (c.1, c.2, state).

End Orders.

(** ** Independent report generators in one pass

    Two partial visitors, each with a world of its own, placed side by side
    in the world of pairs and composed into one visitor. *)

Section SideBySide.

Context {CoverageSummary FileCoverage NodeRef : Type}.
Context {W1 W2 State E : Type}.

Definition on_left (p : @prop CoverageSummary FileCoverage NodeRef W1 State E)
  : @prop CoverageSummary FileCoverage NodeRef (W1 * W2) State E :=
  match p with
  | Fn f => Fn (fun n state w =>
                  match f n state w.1 with
                  | (w1, c) => ((w1, w.2), c)
                  end)
  | Other b => Other b
  end.

Definition on_right (p : @prop CoverageSummary FileCoverage NodeRef W2 State E)
  : @prop CoverageSummary FileCoverage NodeRef (W1 * W2) State E :=
  match p with
  | Fn f => Fn (fun n state w =>
                  match f n state w.2 with
                  | (w2, c) => ((w.1, w2), c)
                  end)
  | Other b => Other b
  end.

(** [new CompositeVisitor([d1, d2])] for two such delegates. *)
Definition side_by_side
    (d1 : gmap string (@prop CoverageSummary FileCoverage NodeRef W1 State E))
    (d2 : gmap string (@prop CoverageSummary FileCoverage NodeRef W2 State E))
  : @visitor CoverageSummary FileCoverage NodeRef (W1 * W2) State E :=
  CompositeVisitor (Arr [Raw (on_left <$> d1); Raw (on_right <$> d2)]).

End SideBySide.

(** ** Further samples *)

Module Sample2.

(** A node that says it is a summary and does not override [getChildren]. *)
Definition childless : Sample.node :=
  {| own_getQualifiedName := Some "childless";
     own_getRelativeName := Some "childless";
     own_getParent := Some None;
     own_getChildren := None;
     own_isSummary := Some true;
     own_getCoverageSummary := Some (fun _ => 0);
     own_getFileCoverage := Some None |}.

(** A report generator that counts the lines of the files it sees. *)
Definition count_lines (n : Sample.node) (state : nat) : @M nat string unit :=
  fun total =>
    (total + match own_getFileCoverage n with
             | Some (Some lines) => lines
             | _ => 0
             end, Normal tt).

Definition counter : gmap string (@prop nat nat ref nat nat string) :=
  {[ "onDetail" := Fn count_lines ]}.

End Sample2.

(** * Properties of the traversal protocol *)

Section ProtocolFacts.

Context {CoverageSummary FileCoverage NodeRef : Type}.
Context {W State E : Type}.

#[local] Abbreviation node := (@node CoverageSummary FileCoverage NodeRef).
#[local] Abbreviation visitor :=
  (@visitor CoverageSummary FileCoverage NodeRef W State E).
#[local] Abbreviation visitor_like :=
  (@visitor_like CoverageSummary FileCoverage NodeRef W State E).
#[local] Abbreviation tree := (@tree CoverageSummary FileCoverage NodeRef).
#[local] Abbreviation visitors_arg :=
  (@visitors_arg CoverageSummary FileCoverage NodeRef W State E).
#[local] Abbreviation prop := (@prop CoverageSummary FileCoverage NodeRef W State E).
#[local] Abbreviation M := (@M W E).
#[local] Abbreviation script := (@script CoverageSummary FileCoverage NodeRef E).
#[local] Abbreviation invoke := (@invoke CoverageSummary FileCoverage NodeRef E).
#[local] Abbreviation isSummary :=
  (@isSummary CoverageSummary FileCoverage NodeRef E).
#[local] Abbreviation getChildren :=
  (@getChildren CoverageSummary FileCoverage NodeRef E).
#[local] Abbreviation getParent :=
  (@getParent CoverageSummary FileCoverage NodeRef E).
#[local] Abbreviation isRoot := (@isRoot CoverageSummary FileCoverage NodeRef E).
#[local] Abbreviation getRoot := (@getRoot CoverageSummary FileCoverage NodeRef E).

(** Induction on a node with the hypothesis on all its children. *)
Lemma node_children_ind (P : node -> Prop) :
  (forall n, Forall P (children n) -> P n) -> forall n, P n.
Proof.
  intros step. fix IH 1. intros n. apply step.
  destruct n as [qn rn p ch s cov fc]. unfold children. simpl.
  destruct ch as [l|]; simpl; [|constructor].
  revert l. fix IHl 1. intros [|c l]; constructor.
  - apply IH.
  - apply IHl.
Qed.

Lemma bind_ret_l {A B} (a : A) (f : A -> M B) w :
  bind (ret a) f w = f a w.
Proof. reflexivity. Qed.

Lemma bind_ret_r {A} (m : M A) w :
  bind m ret w = m w.
Proof.
  unfold bind, ret. destruct (m w) as [w' [a|e]]; reflexivity.
Qed.

Lemma bind_tt_r (m : M unit) w :
  bind m (fun _ => ret tt) w = m w.
Proof.
  unfold bind, ret. destruct (m w) as [w' [[]|e]]; reflexivity.
Qed.

Lemma bind_assoc {A B C} (m : M A) (f : A -> M B) (g : B -> M C) w :
  bind (bind m f) g w = bind m (fun a => bind (f a) g) w.
Proof.
  unfold bind. destruct (m w) as [w' [a|e]]; reflexivity.
Qed.

Lemma bind_ext {A B} (m : M A) (f g : A -> M B) w :
  (forall a w', f a w' = g a w') -> bind m f w = bind m g w.
Proof.
  intros Hfg. unfold bind. destruct (m w) as [w' [a|e]]; [apply Hfg | reflexivity].
Qed.

Lemma bind_cong {A B} (m1 m2 : M A) (f g : A -> M B) w :
  m1 w = m2 w -> (forall a w', f a w' = g a w') -> bind m1 f w = bind m2 g w.
Proof.
  intros Hm Hfg. unfold bind. rewrite Hm.
  destruct (m2 w) as [w' [a|e]]; [apply Hfg | reflexivity].
Qed.

Lemma forEach_app {A} (f : A -> M unit) (l1 l2 : list A) w :
  forEach f (l1 ++ l2) w = bind (forEach f l1) (fun _ => forEach f l2) w.
Proof.
  revert w. induction l1 as [|x l1 IH]; intros w; simpl.
  - reflexivity.
  - rewrite bind_assoc. apply bind_ext. intros _ w'. apply IH.
Qed.

Lemma forEach_Forall_ext {A} (f g : A -> M unit) (l : list A) w :
  Forall (fun x => forall w', f x w' = g x w') l ->
  forEach f l w = forEach g l w.
Proof.
  intros Hl. revert w. induction Hl as [|x l Hx _ IH]; intros w; simpl.
  - reflexivity.
  - unfold bind. rewrite Hx. destruct (g x w) as [w' [[]|e]]; [apply IH | reflexivity].
Qed.

Lemma forEach_map {A B} (h : A -> B) (f : B -> M unit) (l : list A) w :
  forEach f (map h l) w = forEach (fun x => f (h x)) l w.
Proof.
  revert w. induction l as [|x l IH]; intros w; simpl; [reflexivity|].
  apply bind_ext. intros _ w'. apply IH.
Qed.

Lemma forEach_flat_map {A B} (h : A -> list B) (f : B -> M unit) (l : list A) w :
  forEach f (flat_map h l) w = forEach (fun x => forEach f (h x)) l w.
Proof.
  revert w. induction l as [|x l IH]; intros w; simpl; [reflexivity|].
  rewrite forEach_app. apply bind_ext. intros _ w'. apply IH.
Qed.

Lemma run_cons (v : visitor) (st : State) a l w :
  run v st (a :: l) w = bind (perform v st a) (fun _ => run v st l) w.
Proof. reflexivity. Qed.

Lemma run_app (v : visitor) (st : State) l1 l2 w :
  run v st (l1 ++ l2) w = bind (run v st l1) (fun _ => run v st l2) w.
Proof. apply forEach_app. Qed.

Lemma run_Raise (v : visitor) (st : State) e l w :
  run v st (Raise e :: l) w = (w, Throw e).
Proof. reflexivity. Qed.

Lemma visit_unfold (v : visitor) (st : State) (n : node) w :
  visit v st n w =
  bind (lift (isSummary n)) (fun s =>
  bind (if s then call Summary v n st else call Detail v n st) (fun _ =>
  bind (match own_getChildren n with
        | Some children => forEach (visit v st) children
        | None => lift (must_be_overridden "getChildren")
        end) (fun _ =>
  bind (lift (isSummary n)) (fun s' =>
  if s' then call SummaryEnd v n st else ret tt)))) w.
Proof. destruct n; reflexivity. Qed.

(** The body of [visit] as the source has it, with [this.getChildren()]. *)
Lemma visit_body (v : visitor) (st : State) (n : node) w :
  visit v st n w =
  bind (lift (isSummary n)) (fun s =>
  bind (if s then call Summary v n st else call Detail v n st) (fun _ =>
  bind (bind (lift (getChildren n)) (forEach (visit v st))) (fun _ =>
  bind (lift (isSummary n)) (fun s' =>
  if s' then call SummaryEnd v n st else ret tt)))) w.
Proof.
  rewrite visit_unfold. apply bind_ext. intros s w1.
  apply bind_ext. intros _ w2. apply bind_cong; [|reflexivity].
  unfold getChildren, dispatch. destruct (own_getChildren n); reflexivity.
Qed.

Lemma script_unfold (n : node) :
  script n =
  match isSummary n with
  | Throw e => [Raise e]
  | Normal s =>
      Invoke (if s then Summary else Detail) n
      :: match own_getChildren n with
         | Some children => flat_map script children
         | None => [Raise (Error "getChildren must be overridden")]
         end
      ++ (if s then [Invoke SummaryEnd n] else [])
  end.
Proof. destruct n; reflexivity. Qed.

(** [visit] performs the node's script. *)
Lemma visit_script (v : visitor) (st : State) (n : node) :
  forall w, visit v st n w = run v st (script n) w.
Proof.
  induction n as [n IH] using node_children_ind. intros w.
  rewrite visit_unfold, script_unfold. unfold children in IH.
  unfold isSummary, dispatch.
  destruct (own_isSummary n) as [s|]; [|reflexivity].
  unfold lift at 1. rewrite (bind_ret_l s), run_cons.
  replace (perform v st (Invoke (if s then Summary else Detail) n))
    with (if s then call Summary v n st else call Detail v n st)
    by (destruct s; reflexivity).
  apply bind_ext. intros _ w1. rewrite run_app. apply bind_cong.
  - destruct (own_getChildren n) as [cs|]; [|reflexivity].
    unfold run. rewrite forEach_flat_map. apply forEach_Forall_ext, IH.
  - intros _ w2. destruct s; [|reflexivity].
    unfold lift. rewrite (bind_ret_l true). unfold run. simpl.
    symmetry. apply bind_tt_r.
Qed.

(** [Tree.visit] performs the tree's script with the wrapped visitor. *)
Lemma Tree_visit_script (t : tree) (x : visitor_like) (st : State) :
  forall w, Tree_visit t x st w = run (ensure x) st (tree_script t) w.
Proof.
  intros w. unfold Tree_visit, tree_script.
  destruct (getRoot t) as [root|e]; [|reflexivity].
  unfold lift. rewrite (bind_ret_l root), run_cons.
  apply bind_ext. intros _ w1. rewrite (bind_ret_l root), run_app.
  apply bind_cong; [apply visit_script|].
  intros _ w2. rewrite (bind_ret_l root). unfold run. simpl.
  symmetry. apply bind_tt_r.
Qed.

Lemma isSummary_Normal (n : node) (b : bool) :
  isSummary n = Normal b <-> own_isSummary n = Some b.
Proof.
  unfold isSummary, dispatch, must_be_overridden.
  destruct (own_isSummary n); split; congruence.
Qed.

Lemma getChildren_Normal (n : node) (cs : list node) :
  getChildren n = Normal cs <-> own_getChildren n = Some cs.
Proof.
  unfold getChildren, dispatch, must_be_overridden.
  destruct (own_getChildren n); split; congruence.
Qed.

Lemma conforming_unfold (n : node) :
  conforming n =
  match own_isSummary n, own_getChildren n with
  | Some _, Some children => forallb conforming children
  | _, _ => false
  end.
Proof. destruct n; reflexivity. Qed.

Lemma calls_unfold (n : node) :
  calls n =
  (if is_summary n then (Summary, n) else (Detail, n))
  :: flat_map calls (children n)
  ++ (if is_summary n then [(SummaryEnd, n)] else []).
Proof.
  destruct n as [qn rn p ch s cov fc]. unfold children. simpl.
  destruct ch; reflexivity.
Qed.

Lemma conforming_inv (n : node) :
  conforming n = true ->
  exists s cs, own_isSummary n = Some s /\ own_getChildren n = Some cs
               /\ Forall (fun c => conforming c = true) cs.
Proof.
  rewrite conforming_unfold.
  destruct (own_isSummary n) as [s|]; [|discriminate].
  destruct (own_getChildren n) as [cs|]; [|discriminate].
  intros H. exists s, cs. repeat split.
  apply Forall_forall. intros c Hc. apply list_elem_of_In in Hc.
  rewrite forallb_forall in H. auto.
Qed.

(** On a conforming node the script is the sequence of calls, with no raise. *)
Lemma script_calls (n : node) :
  conforming n = true -> script n = map invoke (calls n).
Proof.
  induction n as [n IH] using node_children_ind. intros Hn.
  destruct (conforming_inv n Hn) as (s & cs & Hs & Hcs & Hall).
  rewrite script_unfold, calls_unfold. unfold children, is_summary in *.
  unfold isSummary, dispatch. rewrite Hs, Hcs in *. simpl in *.
  assert (Hflat : flat_map script cs = map invoke (flat_map calls cs)).
  { clear Hcs. induction cs as [|c cs IHcs]; simpl; [reflexivity|].
    rewrite map_app. inversion IH; inversion Hall; subst. f_equal; auto. }
  rewrite Hflat, map_app. destruct s; reflexivity.
Qed.

Lemma run_invoke (v : visitor) (st : State) l w :
  run v st (map invoke l) w = run_calls v st l w.
Proof. unfold run, run_calls. apply forEach_map. Qed.

Lemma SummaryEnd_calls (n m : node) :
  (SummaryEnd, m) ∈ calls n -> is_summary m = true.
Proof.
  induction n as [n IH] using node_children_ind.
  rewrite calls_unfold. intros Hin.
  apply elem_of_cons in Hin as [Heq|Hin].
  { destruct (is_summary n); discriminate. }
  apply elem_of_app in Hin as [Hin|Hin].
  - apply list_elem_of_In, in_flat_map in Hin as (c & Hc & Hin).
    rewrite Forall_forall in IH. apply (IH c); apply list_elem_of_In; assumption.
  - destruct (is_summary n) eqn:Hs.
    + apply list_elem_of_singleton in Hin. congruence.
    + apply elem_of_nil in Hin. contradiction.
Qed.

Lemma no_Start_End_calls (n : node) c :
  c ∈ calls n -> c.1 ≠ Start /\ c.1 ≠ End_.
Proof.
  induction n as [n IH] using node_children_ind.
  rewrite calls_unfold. intros Hin.
  apply elem_of_cons in Hin as [->|Hin].
  { destruct (is_summary n); split; discriminate. }
  apply elem_of_app in Hin as [Hin|Hin].
  - apply list_elem_of_In, in_flat_map in Hin as (c' & Hc & Hin).
    rewrite Forall_forall in IH. apply (IH c'); apply list_elem_of_In; assumption.
  - destruct (is_summary n).
    + apply list_elem_of_singleton in Hin as ->. split; discriminate.
    + apply elem_of_nil in Hin. contradiction.
Qed.

(** C1. [Node.visit] on a node whose subtree overrides [isSummary] and
    [getChildren] performs, for any visitor, exactly the calls of [calls]:
    [onSummary] on a summary node and [onDetail] on any other node first,
    then the calls of every child in child-sequence order by the same
    procedure, and [onSummaryEnd] last, after all descendants, on a summary
    node only; no [onSummaryEnd] call is ever made on a node that is not a
    summary node. *)
Theorem visit_calls_in_order (v : visitor) (st : State) (n : node) :
  conforming n = true ->
  (forall w, visit v st n w = run_calls v st (calls n) w)
  /\ calls n =
       (if is_summary n then (Summary, n) else (Detail, n))
       :: flat_map calls (children n)
       ++ (if is_summary n then [(SummaryEnd, n)] else [])
  /\ isSummary n = Normal (is_summary n)
  /\ getChildren n = Normal (children n)
  /\ (forall m, (SummaryEnd, m) ∈ calls n -> isSummary m = Normal true)
  /\ (forall m, isSummary m = Normal false -> (SummaryEnd, m) ∉ calls n).
Proof.
  intros Hn. split; [|split; [|split; [|split; [|split]]]].
  - intros w. rewrite visit_script, script_calls by assumption.
    apply run_invoke.
  - apply calls_unfold.
  - destruct (conforming_inv n Hn) as (s & cs & Hs & _).
    unfold is_summary. rewrite Hs. apply isSummary_Normal, Hs.
  - destruct (conforming_inv n Hn) as (s & cs & _ & Hcs & _).
    unfold children. rewrite Hcs. apply getChildren_Normal, Hcs.
  - intros m Hin. apply SummaryEnd_calls in Hin.
    unfold is_summary in Hin. apply isSummary_Normal.
    destruct (own_isSummary m) as [[]|]; simpl in Hin; congruence.
  - intros m Hm Hin. apply SummaryEnd_calls in Hin.
    apply isSummary_Normal in Hm. unfold is_summary in Hin.
    rewrite Hm in Hin. discriminate.
Qed.

Lemma occurrences_none k (l : list (callback * node)) :
  (forall c, c ∈ l -> c.1 ≠ k) -> occurrences k l = 0.
Proof.
  unfold occurrences. induction l as [|c l IH]; intros Hl; [reflexivity|].
  rewrite filter_cons_False by (apply Hl; left).
  apply IH. intros c' Hc'. apply Hl. right. assumption.
Qed.

Lemma occurrences_app k (l1 l2 : list (callback * node)) :
  occurrences k (l1 ++ l2) = occurrences k l1 + occurrences k l2.
Proof. unfold occurrences. rewrite filter_app. apply length_app. Qed.

(** On a tree with a conforming root, [Tree.visit] performs the calls of
    [tree_calls]. *)
Lemma Tree_visit_calls (t : tree) (x : visitor_like) (st : State) (root : node) :
  getRoot t = Normal root ->
  conforming root = true ->
  forall w, Tree_visit t x st w = run_calls (ensure x) st (tree_calls root) w.
Proof.
  intros Hroot Hconf w.
  rewrite Tree_visit_script. unfold tree_script. rewrite Hroot.
  rewrite script_calls by assumption.
  change (Invoke Start root :: map invoke (calls root) ++ [Invoke End_ root])
    with (map invoke ((Start, root) :: calls root) ++ map invoke [(End_, root)]).
  rewrite <- map_app. apply run_invoke.
Qed.

(** C2. [Tree.visit] calls [onStart] on the root, then traverses the tree
    from the root, then calls [onEnd] on the root; in the whole sequence of
    calls [onStart] and [onEnd] occur exactly once each, and the traversal
    itself calls neither of them on any node. *)
Theorem Tree_visit_start_traverse_end
    (t : tree) (x : visitor_like) (st : State) (root : node) :
  getRoot t = Normal root ->
  conforming root = true ->
  (forall w, Tree_visit t x st w =
             bind (call Start (ensure x) root st) (fun _ =>
             bind (visit (ensure x) st root) (fun _ =>
             call End_ (ensure x) root st)) w)
  /\ (forall w, Tree_visit t x st w = run_calls (ensure x) st (tree_calls root) w)
  /\ tree_calls root = (Start, root) :: calls root ++ [(End_, root)]
  /\ occurrences Start (tree_calls root) = 1
  /\ occurrences End_ (tree_calls root) = 1
  /\ (forall c, c ∈ calls root -> c.1 ≠ Start /\ c.1 ≠ End_).
Proof.
  intros Hroot Hconf.
  assert (Hnone : forall c, c ∈ calls root -> c.1 ≠ Start /\ c.1 ≠ End_)
    by apply no_Start_End_calls.
  split; [|split; [|split; [|split; [|split]]]].
  - intros w. unfold Tree_visit. rewrite Hroot. reflexivity.
  - intros w. apply Tree_visit_calls; assumption.
  - reflexivity.
  - unfold tree_calls.
    change ((Start, root) :: calls root ++ [(End_, root)])
      with ([(Start, root)] ++ calls root ++ [(End_, root)]).
    rewrite !occurrences_app, (occurrences_none Start (calls root))
      by (intros c Hc; apply Hnone, Hc).
    reflexivity.
  - unfold tree_calls.
    change ((Start, root) :: calls root ++ [(End_, root)])
      with ([(Start, root)] ++ calls root ++ [(End_, root)]).
    rewrite !occurrences_app, (occurrences_none End_ (calls root))
      by (intros c Hc; apply Hnone, Hc).
    reflexivity.
  - exact Hnone.
Qed.

(** C10. [Node.visit] walks the array [getChildren()] returns whatever
    [isSummary()] says: on a node that is not a summary and whose
    [getChildren()] is [cs], it calls [onDetail] on the node and then visits
    every element of [cs] in order; the node's script is that call followed
    by the scripts of the children, with no [onSummaryEnd] on the node. *)
Theorem visit_detail_visits_children
    (v : visitor) (st : State) (n : node) (cs : list node) :
  isSummary n = Normal false ->
  getChildren n = Normal cs ->
  (forall w, visit v st n w =
             bind (call Detail v n st) (fun _ => forEach (visit v st) cs) w)
  /\ script n = Invoke Detail n :: flat_map script cs.
Proof.
  intros Hs Hcs. split.
  - intros w. rewrite visit_unfold, Hs.
    apply getChildren_Normal in Hcs. rewrite Hcs.
    unfold lift at 1. rewrite (bind_ret_l false).
    apply bind_ext. intros _ w1.
    unfold lift. etransitivity; [|apply bind_tt_r].
    apply bind_ext. intros _ w2. reflexivity.
  - rewrite script_unfold, Hs. apply getChildren_Normal in Hcs.
    rewrite Hcs. rewrite app_nil_r. reflexivity.
Qed.

(** C9. [isRoot()] is computed from the result of [getParent()] at the
    call: it is the negation of that result, it returns [true] exactly when
    [getParent()] returns no node, [false] exactly when it returns one, and
    two nodes with the same [getParent()] have the same [isRoot()]. *)
Theorem isRoot_iff_no_parent (n : node) :
  isRoot n = match getParent n with
             | Normal p => Normal (not_ p)
             | Throw e => Throw e
             end
  /\ (isRoot n = Normal true <-> getParent n = Normal None)
  /\ (isRoot n = Normal false <-> exists p, getParent n = Normal (Some p))
  /\ (forall n' : node, getParent n' = getParent n -> isRoot n' = isRoot n).
Proof.
  split; [reflexivity|]. unfold isRoot.
  split; [|split].
  - destruct (getParent n) as [[p|]|e]; simpl; split; congruence.
  - destruct (getParent n) as [[p|]|e]; simpl; split;
      try congruence; try (intros [p' Hp']; congruence).
    intros _. exists p. reflexivity.
  - intros n' Hn'. rewrite Hn'. reflexivity.
Qed.

(** C8. Each abstract accessor of [Node], and [Tree.getRoot], throws the
    error "<name> must be overridden" on an object that does not override
    it, and so returns no value. *)
Theorem abstract_accessor_throws (n : node) (t : tree) (filesOnly : bool) :
  (own_getQualifiedName n = None ->
   getQualifiedName (E:=E) n = Throw (Error "getQualifiedName must be overridden"))
  /\ (own_getRelativeName n = None ->
      getRelativeName (E:=E) n = Throw (Error "getRelativeName must be overridden"))
  /\ (own_getParent n = None ->
      getParent n = Throw (Error "getParent must be overridden"))
  /\ (own_getChildren n = None ->
      getChildren n = Throw (Error "getChildren must be overridden"))
  /\ (own_isSummary n = None ->
      isSummary n = Throw (Error "isSummary must be overridden"))
  /\ (own_getCoverageSummary n = None ->
      getCoverageSummary (E:=E) n filesOnly =
      Throw (Error "getCoverageSummary must be overridden"))
  /\ (own_getFileCoverage n = None ->
      getFileCoverage (E:=E) n = Throw (Error "getFileCoverage must be overridden"))
  /\ (own_getRoot t = None ->
      getRoot t = Throw (Error "getRoot must be overridden")).
Proof.
  unfold getQualifiedName, getRelativeName, getParent, getChildren, isSummary,
    getCoverageSummary, getFileCoverage, getRoot.
  repeat split; intros ->; reflexivity.
Qed.

Lemma in_turn_failed k (n : node) (st : State) (vs : list visitor) w e :
  fold_left
    (fun acc v =>
       match acc with
       | (w', Normal _) => call k v n st w'
       | (w', Throw e) => (w', Throw e)
       end)
    vs (w, Throw e) = (w, Throw e).
Proof. induction vs as [|v vs IH]; simpl; [reflexivity | apply IH]. Qed.

Lemma forEach_in_turn k (n : node) (st : State) (vs : list visitor) w :
  forEach (fun v => call k v n st) vs w = in_turn k n st vs w.
Proof.
  unfold in_turn. revert w. induction vs as [|v vs IH]; intros w; simpl.
  - reflexivity.
  - unfold bind. destruct (call k v n st w) as [w' [[]|e]].
    + apply IH.
    + symmetry. apply in_turn_failed.
Qed.

(** C3. [CompositeVisitor] turns an argument that is not an array into a
    one-element array, keeps the elements that are instances of [Visitor]
    and wraps the others, and each of its five callbacks invokes that
    callback on the members in registration order with the [(node, state)]
    pair it received, each member starting from the world its predecessor
    left (a member that throws ends the fan-out); for two members, [onDetail]
    of the first runs before [onDetail] of the second. *)
Theorem CompositeVisitor_fans_out :
  (forall x : visitor_like, CompositeVisitor (Bare x) = CompositeVisitor (Arr [x]))
  /\ (forall xs : list visitor_like,
        CompositeVisitor (Arr xs) = Composite (map ensure xs))
  /\ (forall v : visitor, ensure (Inst v) = v)
  /\ (forall d : gmap string prop, ensure (Raw d) = Visitor d)
  /\ (forall k (xs : list visitor_like) (n : node) (st : State) (w : W),
        call k (CompositeVisitor (Arr xs)) n st w =
        in_turn k n st (map ensure xs) w)
  /\ (forall k (x : visitor_like) (n : node) (st : State) (w : W),
        call k (CompositeVisitor (Bare x)) n st w = call k (ensure x) n st w)
  /\ (forall (v1 v2 : visitor_like) (n : node) (st : State) (w : W),
        call Detail (CompositeVisitor (Arr [v1; v2])) n st w =
        match call Detail (ensure v1) n st w with
        | (w1, Normal _) => call Detail (ensure v2) n st w1
        | (w1, Throw e) => (w1, Throw e)
        end).
Proof.
  repeat split.
  - intros k xs n st w. simpl. apply forEach_in_turn.
  - intros k x n st w. simpl. apply bind_tt_r.
  - intros v1 v2 n st w. simpl. unfold bind at 1.
    destruct (call Detail (ensure v1) n st w) as [w1 [[]|e]]; [|reflexivity].
    apply bind_tt_r.
Qed.

Lemma run_abort (v : visitor) (st : State) pre a post w w1 w2 e :
  run v st pre w = (w1, Normal tt) ->
  perform v st a w1 = (w2, Throw e) ->
  run v st (pre ++ a :: post) w = (w2, Throw e).
Proof.
  intros Hpre Ha. rewrite run_app. unfold bind at 1. rewrite Hpre.
  rewrite run_cons. unfold bind. rewrite Ha. reflexivity.
Qed.

(** C6. A delegate function is called by the wrapper with nothing around
    it, so what it throws is what the wrapper's callback throws.  When a
    callback invoked by [Node.visit] or [Tree.visit] throws [e], after the
    calls before it have completed and left the world [w1], the visit ends
    there by throwing the same [e]: its world is the one the failing
    callback left, so the effects of the earlier calls stay and no later
    call is made.  The node is only read: a later visit performs the same
    script again. *)
Theorem callback_failure_propagates
    (v : visitor) (st : State) k (m : node) (w1 w2 : W) (e : exn) :
  call k v m st w1 = (w2, Throw e) ->
  (forall (d : gmap string prop) f,
     d !! on k = Some (Fn f) -> call k (Visitor d) m st w1 = f m st w1)
  /\ (forall (n : node) pre post w,
        script n = pre ++ Invoke k m :: post ->
        run v st pre w = (w1, Normal tt) ->
        visit v st n w = (w2, Throw e)
        /\ forall w', visit v st n w' = run v st (script n) w')
  /\ (forall (t : tree) (x : visitor_like) pre post w,
        ensure x = v ->
        tree_script t = pre ++ Invoke k m :: post ->
        run v st pre w = (w1, Normal tt) ->
        Tree_visit t x st w = (w2, Throw e)
        /\ forall w', Tree_visit t x st w' = run v st (tree_script t) w').
Proof.
  intros Hthrow. split; [|split].
  - intros d f Hd. simpl. unfold Visitor_on. rewrite Hd. reflexivity.
  - intros n pre post w Hscript Hpre. split; [|apply visit_script].
    rewrite visit_script, Hscript. eapply run_abort; eassumption.
  - intros t x pre post w <- Hscript Hpre. split; [|apply Tree_visit_script].
    rewrite Tree_visit_script, Hscript. eapply run_abort; eassumption.
Qed.

Lemma run_calls_only_SummaryEnd (d : gmap string prop) f (st : State) :
  (forall k, k ≠ SummaryEnd -> d !! on k = None) ->
  d !! on SummaryEnd = Some (Fn f) ->
  forall (l : list (callback * node)) w w' e,
    run_calls (Visitor d) st l w = (w', Throw e) ->
    exists m w0, (SummaryEnd, m) ∈ l /\ f m st w0 = (w', Throw e).
Proof.
  intros Habsent Hend l. induction l as [|[k m] l IH]; intros w w' e Hrun.
  - discriminate.
  - unfold run_calls in Hrun. simpl in Hrun. unfold bind, Visitor_on in Hrun.
    destruct (decide (k = SummaryEnd)) as [->|Hk].
    + rewrite Hend in Hrun.
      destruct (f m st w) as [w1 [[]|e1]] eqn:Hf.
      * destruct (IH _ _ _ Hrun) as (m' & w0 & Hin & Hf').
        exists m', w0. split; [right; assumption | assumption].
      * injection Hrun as <- <-. exists m, w. split; [left | assumption].
    + rewrite (Habsent k Hk) in Hrun. simpl in Hrun.
      destruct (IH _ _ _ Hrun) as (m' & w0 & Hin & Hf').
      exists m', w0. split; [right; assumption | assumption].
Qed.

(** C4. A callback that the partial visitor lacks, or holds as something
    that is not a function, is a no-op once wrapped: it leaves the world as
    it is and returns.  For a partial visitor that implements
    [onSummaryEnd] alone, [Tree.visit] over a tree that overrides
    [isSummary] and [getChildren] throws only what that [onSummaryEnd]
    itself throws on a summary node, and returns when it never throws. *)
Theorem absent_callbacks_are_noops :
  (forall (d : gmap string prop) k (n : node) (st : State) (w : W),
     d !! on k = None ->
     call k (ensure (Raw d)) n st w = (w, Normal tt))
  /\ (forall (d : gmap string prop) k b (n : node) (st : State) (w : W),
        d !! on k = Some (Other b) ->
        call k (ensure (Raw d)) n st w = (w, Normal tt))
  /\ (forall (d : gmap string prop) f (t : tree) (root : node) (st : State) (w : W),
        (forall k, k ≠ SummaryEnd -> d !! on k = None) ->
        d !! on SummaryEnd = Some (Fn f) ->
        getRoot t = Normal root ->
        conforming root = true ->
        (forall w' e, Tree_visit t (Raw d) st w = (w', Throw e) ->
           exists m w0, isSummary m = Normal true /\ f m st w0 = (w', Throw e))
        /\ ((forall m w0, (f m st w0).2 = Normal tt) ->
            (Tree_visit t (Raw d) st w).2 = Normal tt)).
Proof.
  split; [|split].
  - intros d k n st w Hd. simpl. unfold Visitor_on. rewrite Hd. reflexivity.
  - intros d k b n st w Hd. simpl. unfold Visitor_on. rewrite Hd. reflexivity.
  - intros d f t root st w Habsent Hend Hroot Hconf.
    assert (Hcalls := Tree_visit_calls t (Raw d) st root Hroot Hconf).
    assert (Hfrom : forall w' e, Tree_visit t (Raw d) st w = (w', Throw e) ->
      exists m w0, isSummary m = Normal true /\ f m st w0 = (w', Throw e)).
    { intros w' e Hthrow. rewrite Hcalls in Hthrow.
      destruct (run_calls_only_SummaryEnd d f st Habsent Hend _ _ _ _ Hthrow)
        as (m & w0 & Hin & Hf).
      exists m, w0. split; [|assumption].
      unfold tree_calls in Hin.
      apply elem_of_cons in Hin as [Heq|Hin]; [discriminate|].
      apply elem_of_app in Hin as [Hin|Hin].
      - apply SummaryEnd_calls in Hin. apply isSummary_Normal.
        unfold is_summary in Hin.
        destruct (own_isSummary m) as [[]|]; simpl in Hin; congruence.
      - apply list_elem_of_singleton in Hin. discriminate. }
    split; [exact Hfrom|].
    intros Hf. destruct (Tree_visit t (Raw d) st w) as [w' [[]|e]] eqn:Hv.
    + reflexivity.
    + destruct (Hfrom w' e eq_refl) as (m & w0 & _ & Hthrow).
      specialize (Hf m w0). rewrite Hthrow in Hf. discriminate.
Qed.

End ProtocolFacts.

(** * Repeated traversals *)

Section RecordingFacts.

Context {CoverageSummary FileCoverage NodeRef : Type}.
Context {W State E : Type}.

#[local] Abbreviation node := (@node CoverageSummary FileCoverage NodeRef).
#[local] Abbreviation tree := (@tree CoverageSummary FileCoverage NodeRef).
#[local] Abbreviation visitor :=
  (@visitor CoverageSummary FileCoverage NodeRef W State E).
#[local] Abbreviation visitor_like :=
  (@visitor_like CoverageSummary FileCoverage NodeRef W State E).
#[local] Abbreviation action := (@action CoverageSummary FileCoverage NodeRef E).
#[local] Abbreviation event := (@event CoverageSummary FileCoverage NodeRef State).

Lemma spy_lookup (v : visitor) k :
  spy v !! on k = Some (Fn (recording k v)).
Proof. destruct k; reflexivity. Qed.

Lemma call_spy (v : visitor) k (n : node) (st : State) (w : W) (log : list event) :
  call k (Visitor (spy v)) n st (w, log) =
  (((call k v n st w).1, log ++ [(k, n, st)]), (call k v n st w).2).
Proof.
  simpl. unfold Visitor_on. rewrite spy_lookup. unfold recording. simpl.
  destruct (call k v n st w); reflexivity.
Qed.

(** The spy leaves the world and the outcome of the traversal as they are. *)
Lemma run_spy_world (v : visitor) (st : State) (l : list action) :
  forall (w : W) (log : list event),
    (run (Visitor (spy v)) st l (w, log)).1.1 = (run v st l w).1
    /\ (run (Visitor (spy v)) st l (w, log)).2 = (run v st l w).2.
Proof.
  induction l as [|a l IH]; intros w log; [split; reflexivity|].
  rewrite !run_cons. unfold bind. destruct a as [k n|e]; unfold perform.
  - rewrite call_spy. destruct (call k v n st w) as [w1 [[]|e]]; simpl.
    + apply IH.
    + split; reflexivity.
  - split; reflexivity.
Qed.

(** With a stateless visitor the log does not depend on the world. *)
Lemma run_spy_log (v : visitor) (st : State) (l : list action) :
  stateless v ->
  forall (w1 w2 : W) (log : list event),
    (run (Visitor (spy v)) st l (w1, log)).1.2
    = (run (Visitor (spy v)) st l (w2, log)).1.2.
Proof.
  intros Hv. induction l as [|a l IH]; intros w1 w2 log; [reflexivity|].
  rewrite !run_cons. unfold bind. destruct a as [k n|e]; unfold perform.
  - rewrite !call_spy. specialize (Hv k n st w1 w2).
    destruct (call k v n st w1) as [w1' c1], (call k v n st w2) as [w2' c2].
    simpl in Hv. subst c2. simpl. destruct c1 as [[]|e]; [apply IH | reflexivity].
  - reflexivity.
Qed.

(** C7. Visiting a tree with a stateless visitor, and then visiting it
    again in the world the first visit left, yields the same callback
    sequence: the same callbacks on the same nodes with the same state, in
    the same order.  The sequence is the one of the visit itself, the
    recording changing neither its world nor its outcome. *)
Theorem visit_twice_same_callbacks
    (t : tree) (x : visitor_like) (st : State) (w : W) :
  stateless (ensure x) ->
  callback_sequence t x st (Tree_visit t x st w).1 = callback_sequence t x st w
  /\ (forall w0 : W,
        (Tree_visit t (Raw (spy (ensure x))) st (w0, [])).1.1
        = (Tree_visit t x st w0).1
        /\ (Tree_visit t (Raw (spy (ensure x))) st (w0, [])).2
           = (Tree_visit t x st w0).2).
Proof.
  intros Hx. split.
  - unfold callback_sequence. rewrite !Tree_visit_script.
    apply run_spy_log, Hx.
  - intros w0. rewrite !Tree_visit_script. apply run_spy_world.
Qed.

End RecordingFacts.

(** * The tree of the package summarizer *)

Section SummarizerFacts.

Context {CoverageSummary FileCoverage E : Type}.
Variable toSummary : FileCoverage -> CoverageSummary.
Variable merge : CoverageSummary -> CoverageSummary -> CoverageSummary.
Variable empty : CoverageSummary.

#[local] Abbreviation file := (string * FileCoverage)%type.
#[local] Abbreviation pnode := (@node CoverageSummary FileCoverage ref).
#[local] Abbreviation ptree := (@tree CoverageSummary FileCoverage ref).
#[local] Abbreviation getRoot := (@getRoot CoverageSummary FileCoverage ref E).
#[local] Abbreviation isSummary := (@isSummary CoverageSummary FileCoverage ref E).
#[local] Abbreviation getParent := (@getParent CoverageSummary FileCoverage ref E).
#[local] Abbreviation getChildren :=
  (@getChildren CoverageSummary FileCoverage ref E).
#[local] Abbreviation getQualifiedName :=
  (@getQualifiedName CoverageSummary FileCoverage ref E).
#[local] Abbreviation getCoverageSummary :=
  (@getCoverageSummary CoverageSummary FileCoverage ref E).
#[local] Abbreviation getFileCoverage :=
  (@getFileCoverage CoverageSummary FileCoverage ref E).
#[local] Abbreviation detailNode := (detailNode toSummary).
#[local] Abbreviation packageNode := (packageNode toSummary merge empty).
#[local] Abbreviation createPackageSummary :=
  (@createPackageSummary CoverageSummary FileCoverage E toSummary merge empty).
#[local] Abbreviation merge_all := (merge_all merge empty).
#[local] Abbreviation summarize := (summarize merge empty).

Lemma group_by_dir_snoc (cm : list file) (f : file) :
  group_by_dir (cm ++ [f]) = add_file (dirname f.1) f (group_by_dir cm).
Proof. unfold group_by_dir. rewrite fold_left_app. reflexivity. Qed.

Lemma files_in_snoc d (cm : list file) (f : file) :
  files_in d (cm ++ [f]) =
  files_in d cm ++ (if decide (dirname f.1 = d) then [f] else []).
Proof.
  unfold files_in. rewrite filter_app. reflexivity.
Qed.

Lemma files_in_none d (cm : list file) :
  (forall f, f ∈ cm -> dirname f.1 ≠ d) -> files_in d cm = [].
Proof.
  unfold files_in. induction cm as [|f cm IH]; intros Hcm; [reflexivity|].
  rewrite filter_cons_False by (apply Hcm; left).
  apply IH. intros f' Hf'. apply Hcm. right. assumption.
Qed.

Lemma add_file_keys d (f : file) (g : list (string * list file)) :
  map fst (add_file d f g) =
  if decide (d ∈ map fst g) then map fst g else map fst g ++ [d].
Proof.
  induction g as [|[d0 fs0] g IH]; simpl.
  - destruct (decide (d ∈ [])) as [Hin|_]; [|reflexivity].
    apply elem_of_nil in Hin. contradiction.
  - destruct (decide (d0 = d)) as [->|Hne]; simpl.
    + destruct (decide (d ∈ d :: map fst g)) as [_|Hnin]; [reflexivity|].
      exfalso. apply Hnin. left.
    + rewrite IH. destruct (decide (d ∈ map fst g)) as [Hin|Hnin].
      * destruct (decide (d ∈ d0 :: map fst g)) as [_|Hnin']; [reflexivity|].
        exfalso. apply Hnin'. right. assumption.
      * destruct (decide (d ∈ d0 :: map fst g)) as [Hin'|_]; [|reflexivity].
        apply elem_of_cons in Hin' as [->|Hin']; contradiction.
Qed.

Lemma add_file_elem d (f : file) (g : list (string * list file)) d' fs' :
  NoDup (map fst g) ->
  (d', fs') ∈ add_file d f g ->
  (d' ≠ d /\ (d', fs') ∈ g)
  \/ (d' = d /\ exists fs, fs' = fs ++ [f]
                 /\ ((d, fs) ∈ g \/ (fs = [] /\ d ∉ map fst g))).
Proof.
  induction g as [|[d0 fs0] g IH]; simpl; intros Hnd Hin.
  - apply list_elem_of_singleton in Hin. injection Hin as -> ->.
    right. split; [reflexivity|]. exists []. split; [reflexivity|].
    right. split; [reflexivity|]. apply not_elem_of_nil.
  - apply NoDup_cons in Hnd as [Hd0 Hnd].
    destruct (decide (d0 = d)) as [->|Hne].
    + apply elem_of_cons in Hin as [Heq|Hin].
      * injection Heq as -> ->. right. split; [reflexivity|].
        exists fs0. split; [reflexivity|]. left. left.
      * left. split; [|right; assumption].
        intros ->. apply Hd0.
        apply (list_elem_of_fmap_2 fst) in Hin. exact Hin.
    + apply elem_of_cons in Hin as [Heq|Hin].
      * injection Heq as -> ->. left. split; [assumption | left].
      * destruct (IH Hnd Hin) as [[Hd' Hg]|[-> (fs & -> & Hfs)]].
        -- left. split; [assumption | right; assumption].
        -- right. split; [reflexivity|]. exists fs. split; [reflexivity|].
           destruct Hfs as [Hg|[-> Hnin]]; [left; right; assumption|].
           right. split; [reflexivity|].
           intros Hin'. apply elem_of_cons in Hin' as [->|Hin']; contradiction.
Qed.

Lemma group_by_dir_grouped (cm : list file) : grouped cm (group_by_dir cm).
Proof.
  induction cm as [|f cm IH] using rev_ind.
  - repeat split.
    + constructor.
    + intros d fs Hin. apply elem_of_nil in Hin. contradiction.
    + intros f Hin. apply elem_of_nil in Hin. contradiction.
    + intros d Hin. apply elem_of_nil in Hin. contradiction.
  - destruct IH as (Hnd & Hfiles & Hall & Hsome).
    rewrite group_by_dir_snoc. set (g := group_by_dir cm) in *.
    set (d := dirname f.1).
    assert (Hkeys := add_file_keys d f g).
    split; [|split; [|split]].
    + rewrite Hkeys. destruct (decide (d ∈ map fst g)) as [Hin|Hnin]; [assumption|].
      apply NoDup_app. split; [assumption|]. split.
      * intros x Hx Hx'. apply list_elem_of_singleton in Hx'. congruence.
      * apply NoDup_singleton.
    + intros d' fs' Hin. rewrite files_in_snoc. fold d.
      destruct (add_file_elem d f g d' fs' Hnd Hin)
        as [[Hne Hg]|[-> (fs & -> & [Hg|[-> Hnin]])]].
      * rewrite decide_False by congruence. rewrite app_nil_r. apply Hfiles, Hg.
      * rewrite decide_True by reflexivity. f_equal. apply Hfiles, Hg.
      * rewrite decide_True by reflexivity. f_equal. symmetry.
        apply files_in_none. intros f' Hf' Heq. apply Hnin.
        rewrite <- Heq. apply Hall, Hf'.
    + intros f' Hf'. rewrite Hkeys.
      apply elem_of_app in Hf' as [Hf'|Hf'].
      * destruct (decide (d ∈ map fst g)); [|apply elem_of_app; left]; apply Hall, Hf'.
      * apply list_elem_of_singleton in Hf' as ->. fold d.
        destruct (decide (d ∈ map fst g)); [assumption|].
        apply elem_of_app. right. left.
    + intros d' Hd'. rewrite Hkeys in Hd'.
      assert (Hold : d' ∈ map fst g -> exists f0, f0 ∈ cm ++ [f] /\ dirname f0.1 = d').
      { intros Hin. destruct (Hsome d' Hin) as (f0 & Hf0 & Heq).
        exists f0. split; [apply elem_of_app; left; assumption | assumption]. }
      destruct (decide (d ∈ map fst g)); [apply Hold, Hd'|].
      apply elem_of_app in Hd' as [Hd'|Hd']; [apply Hold, Hd'|].
      apply list_elem_of_singleton in Hd' as ->.
      exists f. split; [apply elem_of_app; right; left | reflexivity].
Qed.

Lemma summarize_details (parent : ref) (files : list file) (filesOnly : bool) :
  summarize (map (detailNode parent) files) filesOnly =
  merge_all (map (fun f => toSummary f.2) files).
Proof.
  unfold summarize, merge_all. generalize empty.
  induction files as [|f files IH]; intros acc; simpl; [reflexivity|].
  rewrite andb_false_r. apply IH.
Qed.

(** C5. For a coverage mapping whose keys all decompose, the [pkg]
    summarizer returns a tree whose root is a summary node without parent;
    the children of the root are summary nodes, one for each distinct
    containing directory of a file of the mapping; the children of the
    package of a directory are the detail nodes of the files directly inside
    that directory, in the order of the mapping, and nothing else; the
    coverage summary of a package is the merge of the summaries of exactly
    those files; and a detail node has no children. *)
Theorem pkg_tree_two_levels (coverageMap : list file) :
  forallb (fun f => decomposable f.1) coverageMap = true ->
  exists (t : ptree) (root : pnode) (dirs : list string) (packages : list pnode),
    createPackageSummary coverageMap = Normal t
    /\ getRoot t = Normal root
    /\ isSummary root = Normal true
    /\ getParent root = Normal None
    /\ getChildren root = Normal packages
    /\ NoDup dirs
    /\ (forall d, d ∈ dirs <-> exists f, f ∈ coverageMap /\ dirname f.1 = d)
    /\ Forall2
         (fun d p =>
            getQualifiedName p = Normal d
            /\ isSummary p = Normal true
            /\ getParent p = Normal (Some RootRef)
            /\ getChildren p =
               Normal (map (detailNode (PackageRef d)) (files_in d coverageMap))
            /\ forall filesOnly,
                 getCoverageSummary p filesOnly =
                 Normal (merge_all (map (fun f => toSummary f.2)
                                        (files_in d coverageMap))))
         dirs packages
    /\ (forall (r : ref) (f : file),
          isSummary (detailNode r f) = Normal false
          /\ getChildren (detailNode r f) = Normal []
          /\ getQualifiedName (detailNode r f) = Normal f.1
          /\ getFileCoverage (detailNode r f) = Normal (Some f.2)
          /\ forall filesOnly,
               getCoverageSummary (detailNode r f) filesOnly
               = Normal (toSummary f.2)).
Proof.
  intros Hkeys.
  destruct (group_by_dir_grouped coverageMap) as (Hnd & Hfiles & Hall & Hsome).
  set (g := group_by_dir coverageMap) in *.
  exists (mkTree (Some (summaryNode merge empty "" None (map packageNode g)))),
    (summaryNode merge empty "" None (map packageNode g)),
    (map fst g), (map packageNode g).
  split; [|split; [|split; [|split; [|split; [|split; [|split; [|split]]]]]]].
  - unfold createPackageSummary. rewrite Hkeys. reflexivity.
  - reflexivity.
  - reflexivity.
  - reflexivity.
  - reflexivity.
  - exact Hnd.
  - intros d. split; [apply Hsome|].
    intros (f & Hf & <-). apply Hall, Hf.
  - clear Hnd Hall Hsome.
    induction g as [|[d fs] g IH]; simpl; constructor.
    + assert (Hfs : fs = files_in d coverageMap) by (apply Hfiles; left).
      subst fs. repeat split.
      intros filesOnly. unfold getCoverageSummary. simpl.
      f_equal. apply summarize_details.
    + apply IH. intros d' fs' Hin. apply Hfiles. right. assumption.
  - intros r f. repeat split.
Qed.

End SummarizerFacts.

(** * The sample report *)

Module SampleFacts.
Import Sample.

Example pkg_sample :
  createPackageSummary (E:=string) id Nat.add 0 coverageMap = Normal report.
Proof. reflexivity. Qed.

Example visit_sample :
  Tree_visit report (Raw logger) 0 [] =
  ([ "onStart "; "onSummary "; "onSummary lib"; "onDetail lib/a.js";
     "onDetail lib/c.js"; "onSummaryEnd lib"; "onSummary lib/util";
     "onDetail lib/util/b.js"; "onSummaryEnd lib/util"; "onSummary ";
     "onDetail index.js"; "onSummaryEnd "; "onSummaryEnd "; "onEnd " ],
   Normal tt).
Proof. reflexivity. Qed.

Example pkg_excludes_deeper_files :
  getCoverageSummary (E:=string) lib false = Normal 10
  /\ getCoverageSummary (E:=string) lib_util false = Normal 5.
Proof. split; reflexivity. Qed.

Example visit_odd :
  visit (Visitor logger) 0 odd [] =
  (["onDetail odd"; "onDetail lib/a.js"], Normal tt).
Proof. reflexivity. Qed.

Example visit_failing :
  Tree_visit report (Raw failing) 0 [] =
  (["onSummary "; "onSummary lib"; "failing on lib/a.js"], Throw (Thrown "boom")).
Proof. reflexivity. Qed.

Example visit_detail_only :
  Tree_visit report (Raw detail_only) 0 [] =
  (["onDetail lib/a.js"; "onDetail lib/c.js"; "onDetail lib/util/b.js";
    "onDetail index.js"], Normal tt).
Proof. reflexivity. Qed.

Example visit_composite :
  call Detail (CompositeVisitor (Arr [Raw end_only; Raw logger; Inst (Visitor detail_only)]))
       a_js 0 [] =
  (["onDetail lib/a.js"; "onDetail lib/a.js"], Normal tt).
Proof. reflexivity. Qed.

Example visit_composite_failing :
  call Detail (CompositeVisitor (Arr [Raw logger; Raw failing; Raw logger])) a_js 0 [] =
  (["onDetail lib/a.js"; "failing on lib/a.js"], Throw (Thrown "boom")).
Proof. reflexivity. Qed.

Example sequence_sample :
  callback_sequence report (Raw end_only) 0 [] =
  [(Start, root, 0); (Summary, root, 0); (Summary, lib, 0); (Detail, a_js, 0);
   (Detail, c_js, 0); (SummaryEnd, lib, 0); (Summary, lib_util, 0);
   (Detail, b_js, 0); (SummaryEnd, lib_util, 0); (Summary, top, 0);
   (Detail, index_js, 0); (SummaryEnd, top, 0); (SummaryEnd, root, 0);
   (End_, root, 0)].
Proof. reflexivity. Qed.

Example dirname_sample :
  dirname "lib/util/b.js" = "lib/util" /\ dirname "index.js" = ""
  /\ dirname "/abs/x.js" = "abs" /\ decomposable "" = false
  /\ decomposable "/" = false.
Proof. repeat split. Qed.

Example pkg_invalid :
  createPackageSummary (E:=string) id Nat.add 0 [("a.js", 1); ("", 2)]
  = Throw (Error "invalid coverage data").
Proof. reflexivity. Qed.

Example visit_bare :
  visit (Visitor logger) 0 bare_node [] =
  ([], Throw (Error "isSummary must be overridden")).
Proof. reflexivity. Qed.

Lemma visit_calls_in_order_witness :
  conforming root = true
  /\ visit (Visitor logger) 0 root [] = run_calls (Visitor logger) 0 (calls root) [].
Proof.
  split; [reflexivity|].
  apply (visit_calls_in_order (Visitor logger) 0 root). reflexivity.
Defined.

Lemma Tree_visit_start_traverse_end_witness :
  getRoot (E:=string) report = Normal root
  /\ conforming root = true
  /\ occurrences Start (tree_calls root) = 1.
Proof.
  split; [reflexivity|]. split; [reflexivity|].
  apply (Tree_visit_start_traverse_end report (Raw logger) 0 root); reflexivity.
Defined.

Lemma absent_callbacks_are_noops_witness :
  (Tree_visit report (Raw end_only) 0 []).2 = Normal tt
  /\ call Start (ensure (Raw end_only)) root 0 [] = ([], Normal tt).
Proof.
  destruct (@absent_callbacks_are_noops nat nat ref (list string) nat string)
    as (Habsent & _ & Honly).
  split.
  - apply (Honly end_only (note SummaryEnd) report root 0 []).
    + intros k Hk. destruct k; try reflexivity. contradiction.
    + reflexivity.
    + reflexivity.
    + reflexivity.
    + intros m w0. reflexivity.
  - apply Habsent. reflexivity.
Defined.

Lemma pkg_tree_two_levels_witness :
  forallb (fun f => decomposable f.1) coverageMap = true
  /\ exists t, createPackageSummary (E:=string) id Nat.add 0 coverageMap = Normal t.
Proof.
  split; [reflexivity|].
  destruct (pkg_tree_two_levels (E:=string) id Nat.add 0 coverageMap eq_refl)
    as (t & _ & _ & _ & Ht & _).
  exists t. exact Ht.
Defined.

Lemma callback_failure_propagates_witness :
  call Detail (Visitor failing) a_js 0 ["onSummary "; "onSummary lib"]
  = (["onSummary "; "onSummary lib"; "failing on lib/a.js"], Throw (Thrown "boom"))
  /\ visit (Visitor failing) 0 root []
     = (["onSummary "; "onSummary lib"; "failing on lib/a.js"],
        Throw (Thrown "boom")).
Proof.
  split; [reflexivity|].
  destruct (callback_failure_propagates (Visitor failing) 0 Detail a_js
              ["onSummary "; "onSummary lib"]
              ["onSummary "; "onSummary lib"; "failing on lib/a.js"]
              (Thrown "boom") eq_refl) as (_ & Hvisit & _).
  apply (Hvisit root [Invoke Summary root; Invoke Summary lib]
           (Invoke Detail c_js :: Invoke SummaryEnd lib
            :: script lib_util ++ script top ++ [Invoke SummaryEnd root]) []).
  - reflexivity.
  - reflexivity.
Defined.

Lemma visit_twice_same_callbacks_witness :
  stateless (Visitor logger)
  /\ callback_sequence report (Raw logger) 0 (Tree_visit report (Raw logger) 0 []).1
     = callback_sequence report (Raw logger) 0 [].
Proof.
  assert (Hlogger : stateless (Visitor logger)).
  { intros k n st w1 w2. destruct k; reflexivity. }
  split; [exact Hlogger|].
  apply (visit_twice_same_callbacks report (Raw logger) 0 [] Hlogger).
Defined.

Lemma abstract_accessor_throws_witness :
  isSummary (E:=string) bare_node = Throw (Error "isSummary must be overridden")
  /\ getRoot (E:=string) bare_tree = Throw (Error "getRoot must be overridden").
Proof.
  destruct (abstract_accessor_throws (E:=string) bare_node bare_tree false)
    as (_ & _ & _ & _ & Hs & _ & _ & Hr).
  split; [apply Hs | apply Hr]; reflexivity.
Defined.

Lemma isRoot_iff_no_parent_witness :
  getParent (E:=string) root = Normal None /\ isRoot (E:=string) root = Normal true.
Proof.
  split; [reflexivity|].
  destruct (isRoot_iff_no_parent (E:=string) root) as (_ & Hroot & _).
  apply Hroot. reflexivity.
Defined.

Lemma visit_detail_visits_children_witness :
  isSummary (E:=string) odd = Normal false
  /\ getChildren (E:=string) odd = Normal [a_js]
  /\ script (E:=string) odd = Invoke Detail odd :: flat_map script [a_js].
Proof.
  split; [reflexivity|]. split; [reflexivity|].
  apply (visit_detail_visits_children (Visitor logger) 0 odd [a_js]); reflexivity.
Defined.

End SampleFacts.

(** * Visitors as sequences of delegate functions *)

Section VisitorFacts.

Context {CoverageSummary FileCoverage NodeRef : Type}.
Context {W State E : Type}.

#[local] Abbreviation node := (@node CoverageSummary FileCoverage NodeRef).
#[local] Abbreviation tree := (@tree CoverageSummary FileCoverage NodeRef).
#[local] Abbreviation visitor :=
  (@visitor CoverageSummary FileCoverage NodeRef W State E).
#[local] Abbreviation visitor_like :=
  (@visitor_like CoverageSummary FileCoverage NodeRef W State E).
#[local] Abbreviation prop := (@prop CoverageSummary FileCoverage NodeRef W State E).
#[local] Abbreviation M := (@M W E).
#[local] Abbreviation action := (@action CoverageSummary FileCoverage NodeRef E).
#[local] Abbreviation script := (@script CoverageSummary FileCoverage NodeRef E).
#[local] Abbreviation tree_script :=
  (@tree_script CoverageSummary FileCoverage NodeRef E).
#[local] Abbreviation isSummary :=
  (@isSummary CoverageSummary FileCoverage NodeRef E).
#[local] Abbreviation getRoot := (@getRoot CoverageSummary FileCoverage NodeRef E).

(** Induction on a visitor with the hypothesis on all members. *)
Lemma visitor_members_ind (P : visitor -> Prop) :
  (forall d, P (Visitor d)) ->
  (forall vs, Forall P vs -> P (Composite vs)) ->
  forall v, P v.
Proof.
  intros Hd Hvs. fix IH 1. intros [d|vs]; [apply Hd|].
  apply Hvs. revert vs. fix IHvs 1. intros [|v vs]; constructor.
  - apply IH.
  - apply IHvs.
Qed.

Lemma call_delegate_fns k (v : visitor) (n : node) (st : State) :
  forall w, call k v n st w = forEach (fun f => f n st) (delegate_fns k v) w.
Proof.
  induction v as [d|vs IH] using visitor_members_ind; intros w; simpl.
  - unfold Visitor_on. destruct (d !! on k) as [[f|b]|]; simpl; try reflexivity.
    symmetry. apply bind_tt_r.
  - rewrite forEach_flat_map. apply forEach_Forall_ext, IH.
Qed.

Lemma forEach_throw_origin {A} (g : A -> M unit) (l : list A) :
  forall w w' e,
    forEach g l w = (w', Throw e) ->
    exists x w0, x ∈ l /\ g x w0 = (w', Throw e).
Proof.
  induction l as [|x l IH]; intros w w' e Hrun; [discriminate|].
  simpl in Hrun. unfold bind in Hrun.
  destruct (g x w) as [w1 [[]|e1]] eqn:Hg.
  - destruct (IH _ _ _ Hrun) as (y & w0 & Hy & Hthrow).
    exists y, w0. split; [right; assumption | assumption].
  - injection Hrun as <- <-. exists x, w. split; [left | assumption].
Qed.

Lemma forEach_never_throws {A} (g : A -> M unit) (l : list A) w :
  (forall x w0, x ∈ l -> (g x w0).2 = Normal tt) ->
  (forEach g l w).2 = Normal tt.
Proof.
  intros Hg. destruct (forEach g l w) as [w' [[]|e]] eqn:Hrun; [reflexivity|].
  destruct (forEach_throw_origin g l _ _ _ Hrun) as (x & w0 & Hx & Hthrow).
  specialize (Hg x w0 Hx). rewrite Hthrow in Hg. discriminate.
Qed.

Lemma call_throw_origin k (v : visitor) (n : node) (st : State) w w' e :
  call k v n st w = (w', Throw e) ->
  exists f w0, f ∈ delegate_fns k v /\ f n st w0 = (w', Throw e).
Proof.
  rewrite call_delegate_fns. apply forEach_throw_origin.
Qed.

Lemma call_no_fns k (v : visitor) (n : node) (st : State) w :
  delegate_fns k v = [] -> call k v n st w = (w, Normal tt).
Proof. intros Hv. rewrite call_delegate_fns, Hv. reflexivity. Qed.

(** Visitors that agree on every callback perform a script alike. *)
Lemma run_ext (v1 v2 : visitor) (st : State) (l : list action) w :
  (forall k n w0, call k v1 n st w0 = call k v2 n st w0) ->
  run v1 st l w = run v2 st l w.
Proof.
  intros Hv. unfold run. apply forEach_Forall_ext, Forall_forall.
  intros [k n|e] _ w0; [apply Hv | reflexivity].
Qed.

(** X1. A callback of a visitor, however composites are nested in it, runs
    the delegate functions of that callback one after the other, in
    registration order, each on the [(node, state)] pair given; the visitor
    layer adds no error of its own: what a callback throws was thrown by one
    of these functions, and it returns if none of them throws. *)
Theorem call_is_its_delegate_functions
    k (v : visitor) (n : node) (st : State) (w : W) :
  call k v n st w = forEach (fun f => f n st) (delegate_fns k v) w
  /\ (forall w' e, call k v n st w = (w', Throw e) ->
        exists f w0, f ∈ delegate_fns k v /\ f n st w0 = (w', Throw e))
  /\ ((forall f w0, f ∈ delegate_fns k v -> (f n st w0).2 = Normal tt) ->
      (call k v n st w).2 = Normal tt).
Proof.
  split; [apply call_delegate_fns|]. split.
  - intros w' e. apply call_throw_origin.
  - intros Hf. rewrite call_delegate_fns. apply forEach_never_throws.
    intros f w0 Hin. apply Hf, Hin.
Qed.

Lemma call_nested k (xs ys : list visitor_like) (n : node) (st : State) w :
  call k (CompositeVisitor
            (Arr [Inst (CompositeVisitor (Arr xs));
                  Inst (CompositeVisitor (Arr ys))])) n st w
  = call k (CompositeVisitor (Arr (xs ++ ys))) n st w.
Proof.
  simpl. rewrite map_app, forEach_app. apply bind_ext. intros _ w1.
  apply bind_tt_r.
Qed.

(** X2. An instance of [CompositeVisitor] given to [CompositeVisitor] is
    taken as it is, and nesting does not show: the composite of two
    composites behaves, in every callback and over a whole [Tree.visit], as
    the composite of the two arrays put end to end. *)
Theorem CompositeVisitor_nesting_flattens
    (xs ys : list visitor_like) (st : State) :
  ensure (Inst (CompositeVisitor (Arr xs))) = CompositeVisitor (Arr xs)
  /\ (forall k (n : node) w,
        call k (CompositeVisitor
                  (Arr [Inst (CompositeVisitor (Arr xs));
                        Inst (CompositeVisitor (Arr ys))])) n st w
        = call k (CompositeVisitor (Arr (xs ++ ys))) n st w)
  /\ (forall (t : tree) w,
        Tree_visit t (Inst (CompositeVisitor
                              (Arr [Inst (CompositeVisitor (Arr xs));
                                    Inst (CompositeVisitor (Arr ys))]))) st w
        = Tree_visit t (Inst (CompositeVisitor (Arr (xs ++ ys)))) st w).
Proof.
  split; [reflexivity|]. split.
  - intros k n w. apply call_nested.
  - intros t w. rewrite !Tree_visit_script. apply run_ext.
    intros k n w0. apply call_nested.
Qed.

Lemma run_calls_throw_origin (v : visitor) (st : State)
    (l : list (callback * node)) w w' e :
  run_calls v st l w = (w', Throw e) ->
  exists k m f w0, (k, m) ∈ l /\ f ∈ delegate_fns k v
                   /\ f m st w0 = (w', Throw e).
Proof.
  intros Hrun. unfold run_calls in Hrun.
  destruct (forEach_throw_origin _ _ _ _ _ Hrun) as ([k m] & w0 & Hin & Hcall).
  simpl in Hcall.
  destruct (call_throw_origin _ _ _ _ _ _ _ Hcall) as (f & w1 & Hf & Hthrow).
  exists k, m, f, w1. auto.
Qed.

Lemma preorder_unfold (n : node) :
  preorder n = n :: flat_map preorder (children n).
Proof.
  destruct n as [qn rn p ch s cov fc]. unfold children. simpl.
  destruct ch; reflexivity.
Qed.

Lemma postorder_unfold (n : node) :
  postorder n = flat_map postorder (children n) ++ [n].
Proof.
  destruct n as [qn rn p ch s cov fc]. unfold children. simpl.
  destruct ch; reflexivity.
Qed.

Lemma calls_in_preorder (n : node) k m :
  (k, m) ∈ calls n -> m ∈ preorder n.
Proof.
  induction n as [n IH] using node_children_ind.
  rewrite calls_unfold, preorder_unfold. intros Hin.
  apply elem_of_cons in Hin as [Heq|Hin].
  { replace m with n by (destruct (is_summary n); congruence). left. }
  apply elem_of_app in Hin as [Hin|Hin].
  - right. apply list_elem_of_In, in_flat_map in Hin as (c & Hc & Hin).
    apply list_elem_of_In, in_flat_map. exists c. split; [assumption|].
    apply list_elem_of_In. rewrite Forall_forall in IH.
    apply (IH c); apply list_elem_of_In; assumption.
  - destruct (is_summary n).
    + apply list_elem_of_singleton in Hin. injection Hin as -> ->. left.
    + apply elem_of_nil in Hin. contradiction.
Qed.

(** X3. Over a tree whose nodes override [isSummary] and [getChildren],
    [Tree.visit] throws only what a delegate function of the visitor throws,
    on a node of the tree and with the state given; it returns if no
    delegate function throws. *)
Theorem Tree_visit_throws_only_delegate_errors
    (t : tree) (x : visitor_like) (st : State) (root : node) (w : W) :
  getRoot t = Normal root ->
  conforming root = true ->
  (forall w' e, Tree_visit t x st w = (w', Throw e) ->
     exists k m f w0,
       m ∈ preorder root /\ f ∈ delegate_fns k (ensure x)
       /\ f m st w0 = (w', Throw e))
  /\ ((forall k m f w0, f ∈ delegate_fns k (ensure x) ->
         (f m st w0).2 = Normal tt) ->
      (Tree_visit t x st w).2 = Normal tt).
Proof.
  intros Hroot Hconf.
  assert (Horigin : forall w' e, Tree_visit t x st w = (w', Throw e) ->
    exists k m f w0, m ∈ preorder root /\ f ∈ delegate_fns k (ensure x)
                     /\ f m st w0 = (w', Throw e)).
  { intros w' e Hthrow.
    rewrite (Tree_visit_calls t x st root Hroot Hconf) in Hthrow.
    destruct (run_calls_throw_origin _ _ _ _ _ _ Hthrow)
      as (k & m & f & w0 & Hin & Hf & Hfm).
    exists k, m, f, w0. split; [|auto].
    unfold tree_calls in Hin.
    apply elem_of_cons in Hin as [Heq|Hin].
    { injection Heq as -> ->. rewrite preorder_unfold. left. }
    apply elem_of_app in Hin as [Hin|Hin].
    - eapply calls_in_preorder, Hin.
    - apply list_elem_of_singleton in Hin. injection Hin as -> ->.
      rewrite preorder_unfold. left. }
  split; [exact Horigin|].
  intros Hf. destruct (Tree_visit t x st w) as [w' [[]|e]] eqn:Hv; [reflexivity|].
  destruct (Horigin w' e eq_refl) as (k & m & f & w0 & _ & Hin & Hthrow).
  specialize (Hf k m f w0 Hin). rewrite Hthrow in Hf. discriminate.
Qed.

Lemma run_no_fns (v : visitor) (st : State) (l : list action) w :
  (forall k, delegate_fns k v = []) -> (run v st l w).1 = w.
Proof.
  intros Hv. revert w. induction l as [|a l IH]; intros w; [reflexivity|].
  rewrite run_cons. unfold bind. destruct a as [k n|e]; simpl.
  - rewrite call_no_fns by apply Hv. apply IH.
  - reflexivity.
Qed.

(** X4. A visitor without any function, such as the composite of an empty
    array or the wrapper of an empty object, does nothing: [Node.visit] and
    [Tree.visit] leave the world as it was, whatever the tree, and over a
    tree whose nodes override [isSummary] and [getChildren] they return. *)
Theorem visit_with_no_function_does_nothing
    (x : visitor_like) (st : State) (w : W) :
  (forall k, delegate_fns k (ensure x) = []) ->
  (forall n : node, (visit (ensure x) st n w).1 = w)
  /\ (forall t : tree, (Tree_visit t x st w).1 = w)
  /\ (forall (t : tree) (root : node),
        getRoot t = Normal root -> conforming root = true ->
        Tree_visit t x st w = (w, Normal tt)).
Proof.
  intros Hx. split; [|split].
  - intros n. rewrite visit_script. apply run_no_fns, Hx.
  - intros t. rewrite Tree_visit_script. apply run_no_fns, Hx.
  - intros t root Hroot Hconf.
    assert (Hw : (Tree_visit t x st w).1 = w)
      by (rewrite Tree_visit_script; apply run_no_fns, Hx).
    destruct (Tree_visit t x st w) as [w' [[]|e]] eqn:Hv; simpl in Hw; subst w'.
    + reflexivity.
    + rewrite (Tree_visit_calls t x st root Hroot Hconf) in Hv.
      destruct (run_calls_throw_origin _ _ _ _ _ _ Hv)
        as (k & m & f & w0 & _ & Hf & _).
      rewrite Hx in Hf. apply elem_of_nil in Hf. contradiction.
Qed.

(** X5. A composite of one visitor is that visitor: given a value that is
    not an array, or an array of one element, [CompositeVisitor] yields a
    visitor under which [Node.visit] and [Tree.visit] do what they do under
    the value itself, wrapped if it is a plain object. *)
Theorem single_member_composite_is_transparent
    (x : visitor_like) (st : State) (w : W) :
  (forall n : node,
     visit (CompositeVisitor (Bare x)) st n w = visit (ensure x) st n w)
  /\ (forall t : tree,
        Tree_visit t (Inst (CompositeVisitor (Bare x))) st w = Tree_visit t x st w)
  /\ (forall t : tree,
        Tree_visit t (Inst (CompositeVisitor (Arr [x]))) st w = Tree_visit t x st w).
Proof.
  assert (Hcall : forall k (n : node) w0,
    call k (CompositeVisitor (Bare x)) n st w0 = call k (ensure x) n st w0).
  { intros k n w0. simpl. apply bind_tt_r. }
  split; [|split].
  - intros n. rewrite !visit_script. apply run_ext, Hcall.
  - intros t. rewrite !Tree_visit_script. apply run_ext, Hcall.
  - intros t. rewrite !Tree_visit_script. apply run_ext, Hcall.
Qed.

(** X6. A traversal that meets an object without a required override ends
    with that accessor's error, and what has run before stays: without
    [isSummary], [Node.visit] throws before any callback; without
    [getChildren] it throws right after the node's [onSummary] or [onDetail]
    and never reaches [onSummaryEnd]; and [Tree.visit] on a tree without
    [getRoot] throws before [onStart]. *)
Theorem visit_of_incomplete_objects
    (v : visitor) (x : visitor_like) (st : State) (w : W) :
  (forall n : node,
     own_isSummary n = None ->
     visit v st n w = (w, Throw (Error "isSummary must be overridden")))
  /\ (forall (n : node) (s : bool),
        isSummary n = Normal s ->
        own_getChildren n = None ->
        visit v st n w =
        match call (if s then Summary else Detail) v n st w with
        | (w1, Normal _) => (w1, Throw (Error "getChildren must be overridden"))
        | (w1, Throw e) => (w1, Throw e)
        end)
  /\ (forall t : tree,
        own_getRoot t = None ->
        Tree_visit t x st w = (w, Throw (Error "getRoot must be overridden"))).
Proof.
  split; [|split].
  - intros n Hn. rewrite visit_unfold. unfold isSummary, dispatch.
    rewrite Hn. reflexivity.
  - intros n s Hs Hc. rewrite visit_unfold, Hs, Hc.
    unfold bind, lift, must_be_overridden.
    destruct s;
      [destruct (call Summary v n st w) as [w1 [[]|e]]
      |destruct (call Detail v n st w) as [w1 [[]|e]]]; reflexivity.
  - intros t Ht. unfold Tree_visit, getRoot, dispatch.
    rewrite Ht. reflexivity.
Qed.

End VisitorFacts.

(** * The order of the calls *)

Section OrderFacts.

Context {CoverageSummary FileCoverage NodeRef : Type}.
Context {W State E : Type}.

#[local] Abbreviation node := (@node CoverageSummary FileCoverage NodeRef).
#[local] Abbreviation tree := (@tree CoverageSummary FileCoverage NodeRef).
#[local] Abbreviation visitor :=
  (@visitor CoverageSummary FileCoverage NodeRef W State E).
#[local] Abbreviation visitor_like :=
  (@visitor_like CoverageSummary FileCoverage NodeRef W State E).
#[local] Abbreviation getRoot := (@getRoot CoverageSummary FileCoverage NodeRef E).
#[local] Abbreviation event := (@event CoverageSummary FileCoverage NodeRef State).

Lemma visit_calls (v : visitor) (st : State) (n : node) :
  conforming n = true ->
  forall w, visit v st n w = run_calls v st (calls n) w.
Proof.
  intros Hn w. rewrite visit_script, script_calls by assumption.
  apply run_invoke.
Qed.

Lemma entered_app (l1 l2 : list (callback * node)) :
  entered (l1 ++ l2) = entered l1 ++ entered l2.
Proof. unfold entered. rewrite filter_app. apply map_app. Qed.

Lemma left_behind_app (l1 l2 : list (callback * node)) :
  left_behind (l1 ++ l2) = left_behind l1 ++ left_behind l2.
Proof. unfold left_behind. rewrite filter_app. apply map_app. Qed.

Lemma entered_calls (n : node) : entered (calls n) = preorder n.
Proof.
  induction n as [n IH] using node_children_ind.
  rewrite calls_unfold, preorder_unfold.
  change ((if is_summary n then (Summary, n) else (Detail, n))
          :: flat_map calls (children n)
          ++ (if is_summary n then [(SummaryEnd, n)] else []))
    with ([if is_summary n then (Summary, n) else (Detail, n)]
          ++ flat_map calls (children n)
          ++ (if is_summary n then [(SummaryEnd, n)] else [])).
  rewrite !entered_app.
  replace (entered [if is_summary n then (Summary, n) else (Detail, n)])
    with [n] by (destruct (is_summary n); reflexivity).
  replace (entered (if is_summary n then [(SummaryEnd, n)] else []))
    with (@nil node) by (destruct (is_summary n); reflexivity).
  rewrite app_nil_r. simpl. f_equal.
  induction IH as [|c cs Hc _ IHcs]; simpl; [reflexivity|].
  rewrite entered_app, Hc, IHcs. reflexivity.
Qed.

Lemma left_behind_calls (n : node) :
  left_behind (calls n) = filter (fun m => is_summary m = true) (postorder n).
Proof.
  induction n as [n IH] using node_children_ind.
  rewrite calls_unfold, postorder_unfold.
  change ((if is_summary n then (Summary, n) else (Detail, n))
          :: flat_map calls (children n)
          ++ (if is_summary n then [(SummaryEnd, n)] else []))
    with ([if is_summary n then (Summary, n) else (Detail, n)]
          ++ flat_map calls (children n)
          ++ (if is_summary n then [(SummaryEnd, n)] else [])).
  rewrite !left_behind_app, filter_app.
  replace (left_behind [if is_summary n then (Summary, n) else (Detail, n)])
    with (@nil node) by (destruct (is_summary n); reflexivity).
  simpl. f_equal.
  - induction IH as [|c cs Hc _ IHcs]; simpl; [reflexivity|].
    rewrite left_behind_app, filter_app, Hc, IHcs. reflexivity.
  - destruct (is_summary n) eqn:Hs.
    + rewrite filter_cons_True by assumption. reflexivity.
    + rewrite filter_cons_False by congruence. reflexivity.
Qed.

Lemma entered_left_behind_length (l : list (callback * node)) :
  length l = length (entered l) + length (left_behind l).
Proof.
  unfold entered, left_behind. rewrite !length_map.
  induction l as [|c l IH]; [reflexivity|].
  destruct (decide (c.1 = SummaryEnd)) as [Hc|Hc].
  - rewrite filter_cons_False by (intros Hne; apply Hne, Hc).
    rewrite filter_cons_True by assumption. simpl. lia.
  - rewrite filter_cons_True by assumption.
    rewrite filter_cons_False by assumption. simpl. lia.
Qed.

(** X7. [Node.visit] is a depth-first walk that meets every node once on
    the way down and every summary node once more on the way up: over a
    subtree that overrides [isSummary] and [getChildren], the nodes given to
    [onSummary] or [onDetail] are the nodes of the subtree in pre-order, the
    nodes given to [onSummaryEnd] are its summary nodes in post-order, and
    there are no other calls. *)
Theorem visit_is_depth_first (v : visitor) (st : State) (n : node) :
  conforming n = true ->
  (forall w, visit v st n w = run_calls v st (calls n) w)
  /\ entered (calls n) = preorder n
  /\ left_behind (calls n)
     = filter (fun m => is_summary m = true) (postorder n)
  /\ length (calls n)
     = length (preorder n)
       + length (filter (fun m => is_summary m = true) (postorder n)).
Proof.
  intros Hn. split; [apply visit_calls, Hn|].
  split; [apply entered_calls|]. split; [apply left_behind_calls|].
  rewrite entered_left_behind_length, entered_calls, left_behind_calls.
  reflexivity.
Qed.

Lemma bracketed_app (l1 l2 : list (callback * node)) :
  bracketed l1 -> bracketed l2 -> bracketed (l1 ++ l2).
Proof.
  intros H1 H2. induction H1 as [|n l _ IH|n inner l Hinner _ _ IHl]; simpl.
  - assumption.
  - constructor. assumption.
  - rewrite <- app_assoc. simpl. constructor; assumption.
Qed.

Lemma bracketed_calls (n : node) : bracketed (calls n).
Proof.
  induction n as [n IH] using node_children_ind.
  rewrite calls_unfold.
  assert (Hinner : bracketed (flat_map calls (children n))).
  { induction IH as [|c cs Hc _ IHcs]; simpl; [constructor|].
    apply bracketed_app; assumption. }
  destruct (is_summary n).
  - apply bracketed_summary; [assumption | constructor].
  - rewrite app_nil_r. constructor. assumption.
Qed.

(** X8. The summary calls of [Node.visit] are properly nested: over a
    subtree that overrides [isSummary] and [getChildren], every [onSummary]
    on a node is closed by the [onSummaryEnd] on that same node, with the
    calls of the node's descendants, themselves nested in this way, between
    the two. *)
Theorem visit_brackets_summaries (v : visitor) (st : State) (n : node) :
  conforming n = true ->
  (forall w, visit v st n w = run_calls v st (calls n) w)
  /\ bracketed (calls n).
Proof.
  intros Hn. split; [apply visit_calls, Hn | apply bracketed_calls].
Qed.

Lemma run_calls_spy_prefix (v : visitor) (st : State)
    (l : list (callback * node)) :
  forall (w : W) (log : list event),
  exists l1 l2,
    l = l1 ++ l2
    /\ (run_calls (Visitor (spy v)) st l (w, log)).1.2
       = log ++ map (event_of st) l1
    /\ ((run_calls (Visitor (spy v)) st l (w, log)).2 = Normal tt -> l2 = []).
Proof.
  induction l as [|[k n] l IH]; intros w log.
  - exists [], []. simpl. rewrite app_nil_r. auto.
  - change (run_calls (Visitor (spy v)) st ((k, n) :: l) (w, log))
      with (bind (call k (Visitor (spy v)) n st)
                 (fun _ => run_calls (Visitor (spy v)) st l) (w, log)).
    unfold bind. rewrite call_spy.
    destruct (call k v n st w) as [w1 [[]|e]]; cbn [fst snd].
    + destruct (IH w1 (log ++ [(k, n, st)])) as (l1 & l2 & -> & Hlog & Hend).
      exists ((k, n) :: l1), l2. split; [reflexivity|]. split; [|exact Hend].
      rewrite Hlog, <- app_assoc. reflexivity.
    + exists [(k, n)], l. split; [reflexivity|]. split; [reflexivity|].
      discriminate.
Qed.

Lemma callback_sequence_split
    (t : tree) (x : visitor_like) (st : State) (root : node) (w : W) :
  getRoot t = Normal root ->
  conforming root = true ->
  exists l1 l2,
    tree_calls root = l1 ++ l2
    /\ callback_sequence t x st w = map (event_of st) l1
    /\ ((Tree_visit t x st w).2 = Normal tt -> l2 = []).
Proof.
  intros Hroot Hconf. unfold callback_sequence.
  assert (Hsame : (Tree_visit t (Raw (spy (ensure x))) st (w, [])).2
                  = (Tree_visit t x st w).2).
  { rewrite !Tree_visit_script. apply run_spy_world. }
  rewrite <- Hsame.
  rewrite (Tree_visit_calls t (Raw (spy (ensure x))) st root Hroot Hconf).
  destruct (run_calls_spy_prefix (ensure x) st (tree_calls root) w [])
    as (l1 & l2 & Hl & Hlog & Hend).
  exists l1, l2. simpl ensure. rewrite Hlog, app_nil_l. auto.
Qed.

(** X9. A callback that throws cuts the callback sequence of [Tree.visit]
    short and changes nothing else in it: over a tree whose nodes override
    [isSummary] and [getChildren], the sequence of callbacks invoked, with
    their nodes and the state given, is an initial part of the full sequence
    of the tree, and it is the full sequence when the visit returns. *)
Theorem callback_sequence_is_prefix
    (t : tree) (x : visitor_like) (st : State) (root : node) (w : W) :
  getRoot t = Normal root ->
  conforming root = true ->
  callback_sequence t x st w `prefix_of` map (event_of st) (tree_calls root)
  /\ ((Tree_visit t x st w).2 = Normal tt ->
      callback_sequence t x st w = map (event_of st) (tree_calls root)).
Proof.
  intros Hroot Hconf.
  destruct (callback_sequence_split t x st root w Hroot Hconf)
    as (l1 & l2 & Hl & Hseq & Hend).
  rewrite Hseq, Hl. split.
  - exists (map (event_of st) l2). apply map_app.
  - intros Hnormal. rewrite (Hend Hnormal), app_nil_r. reflexivity.
Qed.

(** X11. [onEnd] is no finalizer: over a tree whose nodes override
    [isSummary] and [getChildren], [Tree.visit] invokes [onEnd] only once
    every other call of the traversal has been invoked, so after a callback
    has thrown there is no [onEnd]. *)
Theorem onEnd_only_after_all_calls
    (t : tree) (x : visitor_like) (st : State) (root : node) (w : W) :
  getRoot t = Normal root ->
  conforming root = true ->
  forall m s,
    (End_, m, s) ∈ callback_sequence t x st w ->
    callback_sequence t x st w = map (event_of st) (tree_calls root).
Proof.
  intros Hroot Hconf m s Hin.
  destruct (callback_sequence_split t x st root w Hroot Hconf)
    as (l1 & l2 & Hl & Hseq & _).
  rewrite Hseq in *. rewrite Hl.
  destruct l2 as [|c l2 _] using rev_ind; [rewrite app_nil_r; reflexivity|].
  exfalso. unfold tree_calls in Hl.
  change ((Start, root) :: calls root ++ [(End_, root)])
    with (((Start, root) :: calls root) ++ [(End_, root)]) in Hl.
  rewrite app_assoc in Hl. apply app_inj_tail in Hl as [Hl _].
  apply list_elem_of_fmap in Hin as ([k m'] & Heq & Hin).
  unfold event_of in Heq. simpl in Heq. injection Heq as <- <- _.
  assert (Hpre : (End_, m) ∈ (Start, root) :: calls root).
  { rewrite Hl. apply elem_of_app. left. assumption. }
  apply elem_of_cons in Hpre as [Heq|Hpre]; [discriminate|].
  apply no_Start_End_calls in Hpre as [_ Hne]. apply Hne. reflexivity.
Qed.

End OrderFacts.

(** * One pass for several report generators *)

Section SideBySideFacts.

Context {CoverageSummary FileCoverage NodeRef : Type}.
Context {W1 W2 State E : Type}.

#[local] Abbreviation node := (@node CoverageSummary FileCoverage NodeRef).
#[local] Abbreviation tree := (@tree CoverageSummary FileCoverage NodeRef).
#[local] Abbreviation action := (@action CoverageSummary FileCoverage NodeRef E).
#[local] Abbreviation delegate1 :=
  (gmap string (@prop CoverageSummary FileCoverage NodeRef W1 State E)).
#[local] Abbreviation delegate2 :=
  (gmap string (@prop CoverageSummary FileCoverage NodeRef W2 State E)).

Lemma Visitor_on_left k (d1 : delegate1) (n : node) (st : State) w1 (w2 : W2) :
  Visitor_on k (on_left <$> d1) n st (w1, w2)
  = (((Visitor_on k d1 n st w1).1, w2), (Visitor_on k d1 n st w1).2).
Proof.
  unfold Visitor_on. rewrite lookup_fmap.
  destruct (d1 !! on k) as [[f|b]|]; simpl; try reflexivity.
  destruct (f n st w1); reflexivity.
Qed.

Lemma Visitor_on_right k (d2 : delegate2) (n : node) (st : State) (w1 : W1) w2 :
  Visitor_on k (on_right <$> d2) n st (w1, w2)
  = ((w1, (Visitor_on k d2 n st w2).1), (Visitor_on k d2 n st w2).2).
Proof.
  unfold Visitor_on. rewrite lookup_fmap.
  destruct (d2 !! on k) as [[f|b]|]; simpl; try reflexivity.
  destruct (f n st w2); reflexivity.
Qed.

Lemma call_side_by_side k (d1 : delegate1) (d2 : delegate2)
    (n : node) (st : State) w1 w2 w1' w2' :
  call k (Visitor d1) n st w1 = (w1', Normal tt) ->
  call k (Visitor d2) n st w2 = (w2', Normal tt) ->
  call k (side_by_side d1 d2) n st (w1, w2) = ((w1', w2'), Normal tt).
Proof.
  simpl. intros H1 H2. unfold bind.
  rewrite Visitor_on_left, H1. simpl.
  rewrite Visitor_on_right, H2. reflexivity.
Qed.

Lemma run_side_by_side (d1 : delegate1) (d2 : delegate2) (st : State)
    (l : list action) :
  forall w1 w2 w1' w2',
    run (Visitor d1) st l w1 = (w1', Normal tt) ->
    run (Visitor d2) st l w2 = (w2', Normal tt) ->
    run (side_by_side d1 d2) st l (w1, w2) = ((w1', w2'), Normal tt).
Proof.
  induction l as [|a l IH]; intros w1 w2 w1' w2' H1 H2.
  - change ((w1, @Normal E unit tt) = (w1', Normal tt)) in H1.
    change ((w2, @Normal E unit tt) = (w2', Normal tt)) in H2.
    injection H1 as <-. injection H2 as <-. reflexivity.
  - rewrite run_cons in H1. rewrite run_cons in H2. rewrite run_cons.
    unfold bind in H1, H2 |- *. destruct a as [k n|e].
    + unfold perform in H1, H2 |- *.
      destruct (call k (Visitor d1) n st w1) as [u1 [[]|e1]] eqn:Hc1;
        [|discriminate H1].
      destruct (call k (Visitor d2) n st w2) as [u2 [[]|e2]] eqn:Hc2;
        [|discriminate H2].
      rewrite (call_side_by_side k d1 d2 n st w1 w2 u1 u2 Hc1 Hc2).
      apply IH; assumption.
    + discriminate H1.
Qed.

(** X10. Two report generators that work on worlds of their own can share
    one traversal: when [Tree.visit] with each of them alone returns, so does
    [Tree.visit] with the [CompositeVisitor] of the two, and it leaves each
    world as the generator's own traversal leaves it. *)
Theorem one_pass_for_independent_visitors
    (t : tree) (d1 : delegate1) (d2 : delegate2) (st : State)
    (w1 w1' : W1) (w2 w2' : W2) :
  Tree_visit t (Raw d1) st w1 = (w1', Normal tt) ->
  Tree_visit t (Raw d2) st w2 = (w2', Normal tt) ->
  Tree_visit t (Inst (side_by_side d1 d2)) st (w1, w2)
  = ((w1', w2'), Normal tt).
Proof.
  rewrite !Tree_visit_script. apply run_side_by_side.
Qed.

End SideBySideFacts.

(** * Further facts about the sample report *)

Module Sample2Facts.
Import Sample Sample2.

Example count_sample : Tree_visit report (Raw counter) 0 0 = (26, Normal tt).
Proof. reflexivity. Qed.

Example visit_childless :
  visit (Visitor logger) 0 childless [] =
  (["onSummary childless"], Throw (Error "getChildren must be overridden")).
Proof. reflexivity. Qed.

Example sequence_failing :
  callback_sequence report (Raw failing) 0 [] =
  [(Start, root, 0); (Summary, root, 0); (Summary, lib, 0); (Detail, a_js, 0)].
Proof. reflexivity. Qed.

Example orders_sample :
  preorder root = [root; lib; a_js; c_js; lib_util; b_js; top; index_js]
  /\ postorder root = [a_js; c_js; lib; b_js; lib_util; index_js; top; root].
Proof. split; reflexivity. Qed.

Lemma call_is_its_delegate_functions_witness :
  (call Detail (CompositeVisitor
                  (Arr [Raw end_only; Inst (CompositeVisitor (Arr [Raw logger]));
                        Raw detail_only])) a_js 0 []).2 = Normal tt.
Proof.
  apply (call_is_its_delegate_functions Detail
           (CompositeVisitor
              (Arr [Raw end_only; Inst (CompositeVisitor (Arr [Raw logger]));
                    Raw detail_only])) a_js 0 []).
  intros f w0 Hf.
  change (f ∈ [note Detail; note Detail]) in Hf.
  apply elem_of_cons in Hf as [->|Hf]; [reflexivity|].
  apply list_elem_of_singleton in Hf as ->. reflexivity.
Defined.

Lemma Tree_visit_throws_only_delegate_errors_witness :
  exists k m f w0,
    m ∈ preorder root /\ f ∈ delegate_fns k (Visitor failing)
    /\ f m 0 w0 = (["onSummary "; "onSummary lib"; "failing on lib/a.js"],
                   Throw (Thrown "boom")).
Proof.
  apply (Tree_visit_throws_only_delegate_errors report (Raw failing) 0 root []
           eq_refl eq_refl).
  reflexivity.
Defined.

Lemma visit_with_no_function_does_nothing_witness :
  Tree_visit (E:=string) report (Inst (CompositeVisitor (Arr []))) 0 ["started"]
  = (["started"], Normal tt)
  /\ (Tree_visit (E:=string) bare_tree (Raw ∅) 0 ["started"]).1 = ["started"].
Proof.
  split.
  - destruct (visit_with_no_function_does_nothing (E:=string)
                (NodeRef:=ref) (CoverageSummary:=nat) (FileCoverage:=nat)
                (Inst (CompositeVisitor (Arr []))) 0 ["started"]
                (fun k => eq_refl)) as (_ & _ & Hreturns).
    apply (Hreturns report root); reflexivity.
  - assert (Hempty : forall k,
      delegate_fns k (ensure (Raw (∅ : gmap string prop))) = []).
    { intros k. destruct k; reflexivity. }
    destruct (visit_with_no_function_does_nothing
                (Raw ∅) 0 ["started"] Hempty) as (_ & Hworld & _).
    apply Hworld.
Defined.

Lemma visit_of_incomplete_objects_witness :
  visit (Visitor logger) 0 bare_node []
  = ([], Throw (Error "isSummary must be overridden"))
  /\ visit (Visitor logger) 0 childless []
     = (["onSummary childless"], Throw (Error "getChildren must be overridden"))
  /\ Tree_visit bare_tree (Raw logger) 0 []
     = ([], Throw (Error "getRoot must be overridden")).
Proof.
  destruct (visit_of_incomplete_objects (Visitor logger) (Raw logger) 0 [])
    as (Hsummary & Hchildren & Hroot).
  split; [|split].
  - apply Hsummary. reflexivity.
  - apply (Hchildren childless true); reflexivity.
  - apply Hroot. reflexivity.
Defined.

Lemma visit_is_depth_first_witness :
  conforming root = true /\ entered (calls root) = preorder root.
Proof.
  split; [reflexivity|].
  apply (visit_is_depth_first (Visitor logger) 0 root). reflexivity.
Defined.

Lemma visit_brackets_summaries_witness :
  conforming root = true /\ bracketed (calls root).
Proof.
  split; [reflexivity|].
  apply (visit_brackets_summaries (Visitor logger) 0 root). reflexivity.
Defined.

Lemma callback_sequence_is_prefix_witness :
  callback_sequence report (Raw failing) 0 []
  `prefix_of` map (event_of 0) (tree_calls root).
Proof.
  apply (callback_sequence_is_prefix report (Raw failing) 0 root []);
    reflexivity.
Defined.

Lemma onEnd_only_after_all_calls_witness :
  callback_sequence report (Raw logger) 0 []
  = map (event_of 0) (tree_calls root).
Proof.
  apply (onEnd_only_after_all_calls report (Raw logger) 0 root []
           eq_refl eq_refl root 0).
  vm_compute. do 13 right. left.
Defined.

Example no_onEnd_after_failure :
  forall m s, (End_, m, s) ∉ callback_sequence report (Raw failing) 0 [].
Proof.
  intros m s Hin.
  change ((End_, m, s) ∈
          [(Start, root, 0); (Summary, root, 0); (Summary, lib, 0);
           (Detail, a_js, 0)]) in Hin.
  repeat (apply elem_of_cons in Hin as [Heq|Hin]; [discriminate|]).
  apply elem_of_nil in Hin. contradiction.
Qed.

Lemma one_pass_for_independent_visitors_witness :
  Tree_visit report (Inst (side_by_side logger counter)) 0 ([], 0)
  = (((Tree_visit report (Raw logger) 0 []).1, 26), Normal tt).
Proof.
  apply (one_pass_for_independent_visitors report logger counter 0); reflexivity.
Defined.

End Sample2Facts.
